(** * Beam tracing in [visualization_image.py]

    A shallow embedding of [find_lazor_endpoint] and of the beam loop of
    [save_laser_image], with the properties of the beam-propagation engine
    stated against it.

    Python integers are [Z].  The board and the lists it owns are objects
    of a store addressed by references, so that aliasing and in-place
    updates ([list.pop], [list.append], [grid[x][y] = c]) are visible.
    The two [while] loops may run forever in Python; their models take a
    bound on the number of iterations and answer [OutOfFuel] when the
    bound is reached. *)

From stdpp Require Import base numbers list gmap strings.

Local Open Scope Z_scope.

(** ** Python values *)

Definition Direction : Type := Z * Z.
Definition Position : Type := Z * Z.

(** A laser, and a queued beam, is [(x, y, vx, vy)]. *)
Definition Laser : Type := Z * Z * Z * Z.

(** What [block.interact(direction, position)] may hand back: [None], one
    pair of integers, or a sequence (list or tuple) of pairs. *)
Inductive interact_value : Type :=
  | RNone
  | RPair (dx dy : Z)
  | RSeq (ds : list Direction).

(** The values the variable [new_directions] holds when
    [find_lazor_endpoint] returns it: a list of direction vectors, or a
    [None] that was passed through. *)
Inductive dirs_value : Type :=
  | DNone
  | DList (ds : list Direction).

(** Blocks come from the module [blocks]; the tracer only calls these two
    methods, taken here as pure functions of their arguments. *)
Record Block : Type := {
  within_boundaries : Z → Z → bool;
  interact : Direction → Position → interact_value
}.

(** ** The store *)

Definition loc : Type := positive.

Inductive pyobj : Type :=
  | ObjBlocks (bs : list Block)
  | ObjGrid (rows : list (list string))
  | ObjPoints (ps : list Position)
  | ObjLasers (ls : list Laser).

(** A [Board] instance: its attributes are references into the store. *)
Record Board : Type := {
  placed_blocks : loc;
  orig_grid : loc;
  points : loc;
  lasers : loc
}.

(** Method calls on blocks, in the order they are made; a block is named
    by its index in [get_placed_blocks()]. *)
Inductive call : Type :=
  | CallWithin (i : nat) (x y : Z)
  | CallInteract (i : nat) (d : Direction) (p : Position).

(** [ax.arrow(x, y, dx, dy, ...)]. *)
Record Arrow : Type := { arrow_x : Z; arrow_y : Z; arrow_dx : Z; arrow_dy : Z }.

Record World : Type := {
  heap : gmap loc pyobj;
  calls : list call;
  figure : list Arrow;
  stdout : list Laser
}.

Definition set_heap (h : gmap loc pyobj) (w : World) : World :=
  {| heap := h; calls := calls w; figure := figure w; stdout := stdout w |}.

Definition log_calls (cs : list call) (w : World) : World :=
  {| heap := heap w; calls := calls w ++ cs; figure := figure w;
     stdout := stdout w |}.

Definition add_arrow (a : Arrow) (w : World) : World :=
  {| heap := heap w; calls := calls w; figure := figure w ++ [a];
     stdout := stdout w |}.

Definition add_print (l : Laser) (w : World) : World :=
  {| heap := heap w; calls := calls w; figure := figure w;
     stdout := stdout w ++ [l] |}.

(** ** Computations *)

Inductive exn : Type := IndexError | TypeError | AttributeError.

Inductive outcome (A : Type) : Type :=
  | Returns (a : A)
  | Raises (e : exn)
  | OutOfFuel.
Arguments Returns {A} a.
Arguments Raises {A} e.
Arguments OutOfFuel {A}.

Definition M (A : Type) : Type := World → outcome A * World.

Definition ret {A : Type} (a : A) : M A := λ w, (Returns a, w).

Definition bind {A B : Type} (m : M A) (k : A → M B) : M B :=
  λ w,
    match m w with
    | (Returns a, w') => k a w'
    | (Raises e, w') => (Raises e, w')
    | (OutOfFuel, w') => (OutOfFuel, w')
    end.

Definition out_of_fuel {A : Type} : M A := λ w, (OutOfFuel, w).

Declare Scope py_scope.
Delimit Scope py_scope with py.
Notation "x <- m ;; k" := (bind m (λ x, k))
  (at level 100, m at next level, right associativity) : py_scope.
Notation "m ;;; k" := (bind m (λ _, k))
  (at level 100, right associativity) : py_scope.
Local Open Scope py_scope.

(** ** Board and block methods *)

Definition get_placed_blocks (board : Board) : M (list Block) :=
  λ w,
    match heap w !! placed_blocks board with
    | Some (ObjBlocks bs) => (Returns bs, w)
    | _ => (Raises AttributeError, w)
    end.

Definition call_within_boundaries (i : nat) (block : Block) (x y : Z)
  : M bool :=
  λ w, (Returns (within_boundaries block x y), log_calls [CallWithin i x y] w).

Definition call_interact (i : nat) (block : Block) (d : Direction)
  (p : Position) : M interact_value :=
  λ w, (Returns (interact block d p), log_calls [CallInteract i d p] w).

(** ** [find_lazor_endpoint] *)

(** Lines 33-39.  [None] and the empty sequence are false and stay as they
    are.  A non-empty value whose first element is a list or tuple is a
    sequence of directions, copied direction by direction; a non-empty
    value whose first element is a number is one direction, wrapped in a
    list. *)
Definition ensure_list (new_directions : interact_value) : dirs_value :=
  match new_directions with
  | RNone => DNone
  | RSeq [] => DList []
  | RSeq (d :: ds) => DList (map (λ direction, direction) (d :: ds))
  | RPair dx dy => DList [(dx, dy)]
  end.

(** Lines 29-41: [for block in blocks], leaving at the first block whose
    boundary holds the point.  Returns [(found_collision, new_directions)]. *)
Fixpoint scan_blocks (blocks : list Block) (i : nat) (vx vy x y : Z)
  (new_directions : dirs_value) : M (bool * dirs_value) :=
  match blocks with
  | [] => ret (false, new_directions)
  | block :: rest =>
      hit <- call_within_boundaries i block x y ;;
      if hit then
        r <- call_interact i block (vx, vy) (x, y) ;;
        ret (true, ensure_list r)
      else scan_blocks rest (S i) vx vy x y new_directions
  end.

(** [0 < x < grid_size_x and 0 < y < grid_size_y] *)
Definition in_interior (x y grid_size_x grid_size_y : Z) : bool :=
  (0 <? x) && (x <? grid_size_x) && ((0 <? y) && (y <? grid_size_y)).

(** [0 <= x <= grid_size_x and 0 <= y <= grid_size_y] *)
Definition in_bounds (x y grid_size_x grid_size_y : Z) : bool :=
  (0 <=? x) && (x <=? grid_size_x) && ((0 <=? y) && (y <=? grid_size_y)).

(** Lines 23-56: the [while] loop and the final [return]. *)
Fixpoint trace_loop (fuel : nat) (lazor_grid : Board)
  (x y vx vy grid_size_x grid_size_y : Z) (is_first_turn : bool)
  (new_directions : dirs_value) : M (Z * Z * dirs_value) :=
  match fuel with
  | O => out_of_fuel
  | S fuel' =>
      if in_interior x y grid_size_x grid_size_y || is_first_turn then
        let x := x + vx in
        let y := y + vy in
        blocks <- get_placed_blocks lazor_grid ;;
        r <- scan_blocks blocks 0 vx vy x y new_directions ;;
        let '(found_collision, new_directions) := r in
        if found_collision then
          if in_bounds x y grid_size_x grid_size_y
          then ret (x, y, new_directions)
          else ret (x, y, DList [])
        else
          trace_loop fuel' lazor_grid x y vx vy grid_size_x grid_size_y
            false new_directions
      else ret (x, y, DList [])
  end.

Definition find_lazor_endpoint (fuel : nat) (lazor_grid : Board)
  (x y vx vy grid_size_x grid_size_y : Z) : M (Z * Z * dirs_value) :=
  trace_loop fuel lazor_grid x y vx vy grid_size_x grid_size_y true (DList []).

(** ** The beam loop of [save_laser_image] *)

(** [lazor_grid.lasers.copy()]: a new list object with the same items. *)
Definition lasers_copy (lazor_grid : Board) : M loc :=
  λ w,
    match heap w !! lasers lazor_grid with
    | Some (ObjLasers ls) =>
        let l := fresh (dom (heap w)) in
        (Returns l, set_heap (<[l := ObjLasers ls]> (heap w)) w)
    | _ => (Raises AttributeError, w)
    end.

(** [while lazors:] tests that the list is not empty. *)
Definition list_nonempty (lazors : loc) : M bool :=
  λ w,
    match heap w !! lazors with
    | Some (ObjLasers ls) => (Returns (bool_decide (ls ≠ [])), w)
    | _ => (Raises TypeError, w)
    end.

(** [lazors.pop()] removes and returns the last item. *)
Definition list_pop (lazors : loc) : M Laser :=
  λ w,
    match heap w !! lazors with
    | Some (ObjLasers ls) =>
        match reverse ls with
        | [] => (Raises IndexError, w)
        | item :: front =>
            (Returns item,
             set_heap (<[lazors := ObjLasers (reverse front)]> (heap w)) w)
        end
    | _ => (Raises TypeError, w)
    end.

(** [lazors.append(item)] *)
Definition list_append (lazors : loc) (item : Laser) : M unit :=
  λ w,
    match heap w !! lazors with
    | Some (ObjLasers ls) =>
        (Returns (), set_heap (<[lazors := ObjLasers (ls ++ [item])]> (heap w)) w)
    | _ => (Raises TypeError, w)
    end.

Definition ax_arrow (x y dx dy : Z) : M unit :=
  λ w, (Returns (),
        add_arrow {| arrow_x := x; arrow_y := y; arrow_dx := dx;
                     arrow_dy := dy |} w).

(** [print(f'Queuing new beam: {[...]}')], kept as the list printed. *)
Definition print_queuing (item : Laser) : M unit :=
  λ w, (Returns (), add_print item w).

(** [if new_dirs:] *)
Definition dirs_truthy (new_dirs : dirs_value) : bool :=
  match new_dirs with
  | DNone => false
  | DList [] => false
  | DList (_ :: _) => true
  end.

(** Lines 151-154: [for direction in new_dirs]. *)
Fixpoint queue_new_beams (lazors : loc) (end_x end_y : Z)
  (new_dirs : list Direction) : M unit :=
  match new_dirs with
  | [] => ret ()
  | direction :: rest =>
      print_queuing (end_x, end_y, direction.1, direction.2) ;;;
      list_append lazors (end_x, end_y, direction.1, direction.2) ;;;
      queue_new_beams lazors end_x end_y rest
  end.

Definition dirs_items (new_dirs : dirs_value) : list Direction :=
  match new_dirs with
  | DNone => []
  | DList ds => ds
  end.

(** Lines 132-154: the body of [while lazors].  [steps] bounds the call of
    [find_lazor_endpoint]. *)
Definition beam_iteration (steps : nat) (lazor_grid : Board) (lazors : loc)
  (x_size_grid y_size_grid : Z) : M unit :=
  beam <- list_pop lazors ;;
  let '(start_x, start_y, vx, vy) := beam in
  r <- find_lazor_endpoint steps lazor_grid start_x start_y vx vy
         x_size_grid y_size_grid ;;
  let '(end_x, end_y, new_dirs) := r in
  let lazor_length_x := end_x - start_x in
  let lazor_length_y := end_y - start_y in
  ax_arrow start_x start_y lazor_length_x lazor_length_y ;;;
  if in_bounds end_x end_y x_size_grid y_size_grid then
    if dirs_truthy new_dirs
    then queue_new_beams lazors end_x end_y (dirs_items new_dirs)
    else ret ()
  else ret ().

(** Lines 131-154: [while lazors]; [fuel] bounds its iterations. *)
Fixpoint beam_loop (fuel steps : nat) (lazor_grid : Board) (lazors : loc)
  (x_size_grid y_size_grid : Z) : M unit :=
  match fuel with
  | O => out_of_fuel
  | S fuel' =>
      more <- list_nonempty lazors ;;
      if more then
        beam_iteration steps lazor_grid lazors x_size_grid y_size_grid ;;;
        beam_loop fuel' steps lazor_grid lazors x_size_grid y_size_grid
      else ret ()
  end.

(** Lines 129-154, for given bounds. *)
Definition trace_lazor_beams (fuel steps : nat) (lazor_grid : Board)
  (x_size_grid y_size_grid : Z) : M unit :=
  lazors <- lasers_copy lazor_grid ;;
  beam_loop fuel steps lazor_grid lazors x_size_grid y_size_grid.

(** ** The rest of [save_laser_image] that touches the board *)

(** Python indexing of a sequence of length [n]: negative indices count
    from the end, anything else out of range raises [IndexError]. *)
Definition py_index (n : nat) (i : Z) : option nat :=
  if (0 <=? i) && (i <? Z.of_nat n) then Some (Z.to_nat i)
  else if (- Z.of_nat n <=? i) && (i <? 0) then Some (Z.to_nat (i + Z.of_nat n))
  else None.

(** Lines 69-70: [len(grid) * 2] and [len(grid[0]) * 2]. *)
Definition grid_sizes (grid : loc) : M (Z * Z) :=
  λ w,
    match heap w !! grid with
    | Some (ObjGrid rows) =>
        match rows with
        | [] => (Raises IndexError, w)
        | row0 :: _ =>
            (Returns (Z.of_nat (length rows) * 2, Z.of_nat (length row0) * 2), w)
        end
    | _ => (Raises TypeError, w)
    end.

Definition block_type_dict : gmap string string :=
  {[ "ReflectBlock" := "A"; "OpaqueBlock" := "B"; "RefractBlock" := "C" ]}.

(** [grid[x][y] = c] *)
Definition grid_setitem (grid : loc) (x y : Z) (c : string) : M unit :=
  λ w,
    match heap w !! grid with
    | Some (ObjGrid rows) =>
        match py_index (length rows) x with
        | Some i =>
            match rows !! i with
            | Some row =>
                match py_index (length row) y with
                | Some j =>
                    (Returns (),
                     set_heap (<[grid := ObjGrid (<[i := <[j := c]> row]> rows)]>
                                 (heap w)) w)
                | None => (Raises IndexError, w)
                end
            | None => (Raises IndexError, w)
            end
        | None => (Raises IndexError, w)
        end
    | _ => (Raises TypeError, w)
    end.

(** Lines 91-93: the solution is written into [grid], which is the
    board's [orig_grid] itself. *)
Fixpoint apply_solution (grid : loc) (solution : list (Z * Z * string))
  : M unit :=
  match solution with
  | [] => ret ()
  | (x, y, block_type) :: rest =>
      grid_setitem grid x y (default "?" (block_type_dict !! block_type)) ;;;
      apply_solution grid rest
  end.

(** [save_laser_image], without the artists that only draw (rectangles,
    grid lines, target circles) and without the file output: the sizes,
    the solution overlay and the beam loop. *)
Definition save_laser_image (fuel steps : nat) (lazor_grid : Board)
  (solution : option (list (Z * Z * string))) : M unit :=
  let grid := orig_grid lazor_grid in
  sizes <- grid_sizes grid ;;
  let '(x_size_grid, y_size_grid) := sizes in
  match solution with
  | Some placed => apply_solution grid placed
  | None => ret ()
  end ;;;
  trace_lazor_beams fuel steps lazor_grid x_size_grid y_size_grid.

(** ** Worked configurations *)

Module Scenario.

Definition board : Board :=
  {| placed_blocks := 1%positive; orig_grid := 2%positive;
     points := 3%positive; lasers := 4%positive |}.

(** A board of two by two cells, four by four in point space. *)
Definition world_with (bs : list Block) (ls : list Laser) : World :=
  {| heap := {[ 1%positive := ObjBlocks bs;
                2%positive := ObjGrid [["o"; "o"]; ["o"; "o"]];
                3%positive := ObjPoints [];
                4%positive := ObjLasers ls ]};
     calls := []; figure := []; stdout := [] |}.

(** A block whose boundary holds exactly the point [(px, py)] and whose
    [interact] always returns [r]. *)
Definition block_at (px py : Z) (r : interact_value) : Block :=
  {| within_boundaries := λ x y, (x =? px) && (y =? py);
     interact := λ _ _, r |}.

(** A block whose boundary holds exactly the point [(2, 2)] and that
    sends a beam coming along [(1, 1)] out along [(1, -1)]. *)
Definition reflect_block : Block :=
  {| within_boundaries := λ x y, (x =? 2) && (y =? 2);
     interact := λ d _, if (d.1 =? 1) && (d.2 =? 1) then RPair 1 (-1)
                        else RNone |}.

Definition world : World := world_with [reflect_block] [(0, 0, 1, 1)].

(** A block just outside the top left corner. *)
Definition outside_world : World :=
  world_with [block_at (-1) (-1) (RPair 1 1)] [(0, 0, -1, -1)].

(** Two blocks that both hold the point [(1, 1)]. *)
Definition overlap_world : World :=
  world_with [block_at 3 3 RNone; block_at 1 1 (RPair 1 (-1));
              block_at 1 1 (RSeq [(1, 1); (-1, 1)])]
    [(0, 0, 1, 1)].

(** A block at [(1, 1)] that absorbs the beam by returning [None]. *)
Definition absorbing_world : World :=
  world_with [block_at 1 1 RNone] [(0, 0, 1, 1)].

Definition empty_world : World := world_with [] [(0, 0, 0, 0)].

End Scenario.

(** ** Vocabulary of the statements *)

(** A direction of the eight-neighbour grid. *)
Definition unit_direction (vx vy : Z) : Prop :=
  (-1 ≤ vx ≤ 1) ∧ (-1 ≤ vy ≤ 1) ∧ (vx ≠ 0 ∨ vy ≠ 0).

(** The point a block method was called at. *)
Definition call_position (c : call) : Position :=
  match c with
  | CallWithin _ x y => (x, y)
  | CallInteract _ _ p => p
  end.

(** The block a method was called on, by its index. *)
Definition call_block (c : call) : nat :=
  match c with
  | CallWithin i _ _ => i
  | CallInteract i _ _ => i
  end.

Definition is_interact (c : call) : bool :=
  match c with
  | CallWithin _ _ _ => false
  | CallInteract _ _ _ => true
  end.

(** [within_boundaries(x, y)] asked of the [n] blocks from index [i] on. *)
Definition within_calls (i n : nat) (x y : Z) : list call :=
  map (λ j, CallWithin j x y) (seq i n).

(** The calls of [k] steps that meet none of [n] blocks, from [(x, y)]. *)
Fixpoint free_calls (n : nat) (x y vx vy : Z) (k : nat) : list call :=
  match k with
  | O => []
  | S k' =>
      within_calls 0 n (x + vx) (y + vy)
        ++ free_calls n (x + vx) (y + vy) vx vy k'
  end.

(** No block of [bs] holds the point. *)
Definition no_block_at (bs : list Block) (x y : Z) : Prop :=
  Forall (λ b, within_boundaries b x y = false) bs.

(** The arrows drawn, as segments [(start_x, start_y, end_x, end_y)]. *)
Definition segment_of (a : Arrow) : Z * Z * Z * Z :=
  (arrow_x a, arrow_y a, arrow_x a + arrow_dx a, arrow_y a + arrow_dy a).

(** The board's placed blocks are [bs]. *)
Definition has_blocks (lazor_grid : Board) (bs : list Block) (w : World)
  : Prop :=
  heap w !! placed_blocks lazor_grid = Some (ObjBlocks bs).

(** From [w] to [w'] no object of the store but [l] was written. *)
Definition writes_only (l : loc) (w w' : World) : Prop :=
  ∀ l', l' ≠ l → heap w' !! l' = heap w !! l'.

(** One run of the [while] loop of [find_lazor_endpoint], told as a
    relation: from [(x, y)] with the flag [is_first_turn], it makes [k]
    steps, hands back the directions [ds] and makes the calls [cs]. *)
Inductive Run (bs : list Block) (vx vy gx gy : Z)
  : Z → Z → bool → nat → dirs_value → list call → Prop :=
  | Run_exit x y :
      in_interior x y gx gy = false →
      Run bs vx vy gx gy x y false 0 (DList []) []
  | Run_hit x y first pre b post :
      in_interior x y gx gy || first = true →
      bs = pre ++ b :: post →
      no_block_at pre (x + vx) (y + vy) →
      within_boundaries b (x + vx) (y + vy) = true →
      Run bs vx vy gx gy x y first 1
        (if in_bounds (x + vx) (y + vy) gx gy
         then ensure_list (interact b (vx, vy) (x + vx, y + vy))
         else DList [])
        (within_calls 0 (S (length pre)) (x + vx) (y + vy)
           ++ [CallInteract (length pre) (vx, vy) (x + vx, y + vy)])
  | Run_free x y first k ds cs :
      in_interior x y gx gy || first = true →
      no_block_at bs (x + vx) (y + vy) →
      Run bs vx vy gx gy (x + vx) (y + vy) false k ds cs →
      Run bs vx vy gx gy x y first (S k) ds
        (within_calls 0 (length bs) (x + vx) (y + vy) ++ cs).

(** How far a beam at [(x, y)] inside the grid is from leaving it, along
    an axis on which it moves. *)
Definition room (vx vy gx gy x y : Z) : Z :=
  if 0 <? vx then gx - x
  else if vx <? 0 then x
  else if 0 <? vy then gy - y
  else y.

(** ** A board on which a beam goes back and forth *)

Module Bounce.

(** A block whose boundary holds exactly the point [(px, py)] and that
    sends every beam back the way it came. *)
Definition mirror_at (px py : Z) : Block :=
  {| within_boundaries := λ x y, (x =? px) && (y =? py);
     interact := λ d _, RPair (- d.1) (- d.2) |}.

Definition world : World :=
  Scenario.world_with [mirror_at 1 1; mirror_at 3 3] [(1, 1, 1, 1)].

End Bounce.

(** ** The grid drawing of [save_laser_image] *)

(** Lines 105-110: the colours of the cell symbols. *)
Definition cell_colors : gmap string string :=
  {[ "x" := "black"; "A" := "green"; "B" := "grey"; "C" := "red" ]}.

(** Lines 99-110: a cell marked ['o'] is passed over; any other cell gets
    a square in the colour of its symbol, white if the symbol is not in
    the table. *)
Definition cell_color (col : string) : option string :=
  if String.eqb col "o" then None
  else Some (default "white" (cell_colors !! col)).

(** ** Vocabulary of the further statements *)

(** The beam queued at an end point for an outgoing direction. *)
Definition queued_beam (end_x end_y : Z) (direction : Direction) : Laser :=
  (end_x, end_y, direction.1, direction.2).

Definition beam_moves (beam : Laser) : Prop :=
  let '(_, _, vx, vy) := beam in vx ≠ 0 ∨ vy ≠ 0.

(** The arrow [a] is the segment of [beam]: it starts where the beam
    starts and runs [k >= 1] steps along its direction. *)
Definition arrow_of_beam (a : Arrow) (beam : Laser) : Prop :=
  let '(x, y, vx, vy) := beam in
  arrow_x a = x ∧ arrow_y a = y
  ∧ ∃ k : nat, (1 ≤ k)%nat
      ∧ arrow_dx a = Z.of_nat k * vx ∧ arrow_dy a = Z.of_nat k * vy.

(** A queued beam starts within the bounds, where one of the [arrows]
    ends. *)
Definition beam_start_ok (gx gy : Z) (arrows : list Arrow) (beam : Laser)
  : Prop :=
  let '(x, y, _, _) := beam in
  in_bounds x y gx gy = true
  ∧ ∃ a, a ∈ arrows ∧ arrow_x a + arrow_dx a = x ∧ arrow_y a + arrow_dy a = y.

(** What [w'] has drawn and printed since [w], with every beam printed
    starting well. *)
Definition beams_linked (gx gy : Z) (w w' : World) : Prop :=
  ∃ arrows prints,
    figure w' = figure w ++ arrows
    ∧ stdout w' = stdout w ++ prints
    ∧ Forall (beam_start_ok gx gy arrows) prints.

(** An index Python accepts for a sequence of length [n]. *)
Definition valid_index (n : nat) (i : Z) : Prop :=
  - Z.of_nat n ≤ i < Z.of_nat n.

(** The position [(x, y)] names a cell of a grid whose rows have the
    lengths [shape]. *)
Definition in_shape (shape : list nat) (x y : Z) : Prop :=
  valid_index (length shape) x
  ∧ ∃ n, shape !! Z.to_nat (x `mod` Z.of_nat (length shape)) = Some n
         ∧ valid_index n y.

Definition in_grid (rows : list (list string)) (x y : Z) : Prop :=
  in_shape (map length rows) x y.

Definition placement_in_grid (rows : list (list string))
  (placement : Z * Z * string) : Prop :=
  in_grid rows placement.1.1 placement.1.2.

(** * Properties *)

(** ** Worlds *)

Lemma log_calls_nil w : log_calls [] w = w.
Proof. destruct w; unfold log_calls; simpl. by rewrite app_nil_r. Qed.

Lemma log_calls_app cs1 cs2 w :
  log_calls cs2 (log_calls cs1 w) = log_calls (cs1 ++ cs2) w.
Proof. unfold log_calls; simpl. by rewrite app_assoc. Qed.

(** ** Scanning the blocks *)

Lemma scan_blocks_none bs i vx vy x y nd w :
  no_block_at bs x y →
  scan_blocks bs i vx vy x y nd w
  = (Returns (false, nd), log_calls (within_calls i (length bs) x y) w).
Proof.
  intros Hno. revert i w.
  induction Hno as [|b rest Hb _ IH]; intros i w; simpl.
  - by rewrite log_calls_nil.
  - unfold bind, call_within_boundaries. rewrite Hb, IH, log_calls_app.
    reflexivity.
Qed.

Lemma scan_blocks_first pre b post i vx vy x y nd w :
  no_block_at pre x y →
  within_boundaries b x y = true →
  scan_blocks (pre ++ b :: post) i vx vy x y nd w
  = (Returns (true, ensure_list (interact b (vx, vy) (x, y))),
     log_calls (within_calls i (S (length pre)) x y
                  ++ [CallInteract (i + length pre) (vx, vy) (x, y)]) w).
Proof.
  intros Hno Hb. revert i w.
  induction Hno as [|b' rest Hb' _ IH]; intros i w; simpl.
  - unfold bind, call_within_boundaries, call_interact, ret.
    rewrite Hb, log_calls_app, Nat.add_0_r. reflexivity.
  - unfold bind at 1. unfold call_within_boundaries at 1.
    rewrite Hb', IH, log_calls_app.
    replace (S i + length rest)%nat with (i + S (length rest))%nat by lia.
    reflexivity.
Qed.

(** Either no block holds the point, or there is a first one that does. *)
Lemma blocks_at_cases bs x y :
  no_block_at bs x y
  ∨ ∃ pre b post, bs = pre ++ b :: post ∧ no_block_at pre x y
                  ∧ within_boundaries b x y = true.
Proof.
  induction bs as [|b rest IH].
  - left. constructor.
  - destruct (within_boundaries b x y) eqn:Hb.
    + right. exists [], b, rest. repeat split; [constructor | done].
    + destruct IH as [Hno | (pre & b' & post & -> & Hno & Hb')].
      * left. by constructor.
      * right. exists (b :: pre), b', post.
        repeat split; [by constructor | done].
Qed.

(** The first block in order that holds the point, by its index. *)
Lemma first_block_split (bs : list Block) (i : nat) (b : Block) x y :
  bs !! i = Some b →
  (∀ i' b', (i' < i)%nat → bs !! i' = Some b' →
            within_boundaries b' x y = false) →
  bs = take i bs ++ b :: drop (S i) bs ∧ no_block_at (take i bs) x y
  ∧ length (take i bs) = i.
Proof.
  intros Hi Hearlier. split; [by rewrite take_drop_middle |]. split.
  - apply Forall_lookup. intros i' b' Hi'.
    pose proof (lookup_lt_Some _ _ _ Hi') as Hlt.
    rewrite length_take in Hlt.
    rewrite lookup_take_lt in Hi' by lia.
    apply (Hearlier i' b'); [lia | done].
  - rewrite length_take. apply lookup_lt_Some in Hi. lia.
Qed.

(** ** The stepping loop *)

Section Tracer.

Variable lazor_grid : Board.
Variable bs : list Block.
Variables vx vy gx gy : Z.

Lemma get_placed_blocks_ok w :
  has_blocks lazor_grid bs w → get_placed_blocks lazor_grid w = (Returns bs, w).
Proof. unfold has_blocks, get_placed_blocks. by intros ->. Qed.

Lemma trace_loop_exit fuel x y nd w :
  in_interior x y gx gy = false →
  trace_loop (S fuel) lazor_grid x y vx vy gx gy false nd w
  = (Returns (x, y, DList []), w).
Proof. intros H. simpl. by rewrite H. Qed.

Lemma trace_loop_hit fuel x y first nd w pre b post :
  has_blocks lazor_grid bs w →
  in_interior x y gx gy || first = true →
  bs = pre ++ b :: post →
  no_block_at pre (x + vx) (y + vy) →
  within_boundaries b (x + vx) (y + vy) = true →
  trace_loop (S fuel) lazor_grid x y vx vy gx gy first nd w
  = (Returns (x + vx, y + vy,
              if in_bounds (x + vx) (y + vy) gx gy
              then ensure_list (interact b (vx, vy) (x + vx, y + vy))
              else DList []),
     log_calls (within_calls 0 (S (length pre)) (x + vx) (y + vy)
                  ++ [CallInteract (length pre) (vx, vy) (x + vx, y + vy)])
       w).
Proof.
  intros Hw Hgo Hbs Hno Hb. simpl. rewrite Hgo. unfold bind at 1.
  rewrite (get_placed_blocks_ok _ Hw). unfold bind. rewrite Hbs.
  rewrite (scan_blocks_first _ _ _ _ _ _ _ _ _ _ Hno Hb). simpl.
  by destruct (in_bounds _ _ _ _).
Qed.

Lemma trace_loop_free fuel x y first nd w :
  has_blocks lazor_grid bs w →
  in_interior x y gx gy || first = true →
  no_block_at bs (x + vx) (y + vy) →
  trace_loop (S fuel) lazor_grid x y vx vy gx gy first nd w
  = trace_loop fuel lazor_grid (x + vx) (y + vy) vx vy gx gy false nd
      (log_calls (within_calls 0 (length bs) (x + vx) (y + vy)) w).
Proof.
  intros Hw Hgo Hno. simpl. rewrite Hgo. unfold bind at 1.
  rewrite (get_placed_blocks_ok _ Hw). unfold bind.
  by rewrite (scan_blocks_none _ _ _ _ _ _ _ _ Hno).
Qed.

(** A run told by [Run] is what the loop does, given iterations enough. *)
Lemma trace_loop_run x y first k ds cs :
  Run bs vx vy gx gy x y first k ds cs →
  ∀ fuel nd w, has_blocks lazor_grid bs w → (k < fuel)%nat →
    trace_loop fuel lazor_grid x y vx vy gx gy first nd w
    = (Returns (x + Z.of_nat k * vx, y + Z.of_nat k * vy, ds),
       log_calls cs w).
Proof.
  induction 1 as [x y Hout | x y first pre b post Hgo Hbs Hno Hb
                 | x y first k ds cs Hgo Hno _ IH];
    intros fuel nd w Hw Hfuel; (destruct fuel as [|fuel]; [lia |]).
  - rewrite trace_loop_exit by done. rewrite log_calls_nil.
    replace (x + Z.of_nat 0 * vx) with x by lia.
    by replace (y + Z.of_nat 0 * vy) with y by lia.
  - rewrite (trace_loop_hit _ _ _ _ _ _ pre b post) by done.
    replace (x + Z.of_nat 1 * vx) with (x + vx) by lia.
    by replace (y + Z.of_nat 1 * vy) with (y + vy) by lia.
  - rewrite trace_loop_free by done.
    rewrite IH by (done || lia). rewrite log_calls_app.
    replace (x + vx + Z.of_nat k * vx) with (x + Z.of_nat (S k) * vx) by lia.
    by replace (y + vy + Z.of_nat k * vy) with (y + Z.of_nat (S k) * vy) by lia.
Qed.

(** More iterations do not change a result. *)
Lemma trace_loop_mono fuel :
  ∀ x y first nd w r w',
    trace_loop fuel lazor_grid x y vx vy gx gy first nd w = (Returns r, w') →
    ∀ fuel', (fuel ≤ fuel')%nat →
      trace_loop fuel' lazor_grid x y vx vy gx gy first nd w = (Returns r, w').
Proof.
  induction fuel as [|fuel IH]; intros x y first nd w r w' Hrun fuel' Hle;
    [discriminate |].
  destruct fuel' as [|fuel']; [lia |].
  simpl in *. destruct (in_interior x y gx gy || first); [| done].
  unfold bind in *.
  destruct (get_placed_blocks lazor_grid w) as [[blocks|e|] w1]; try done.
  destruct (scan_blocks blocks 0 vx vy (x + vx) (y + vy) nd w1)
    as [[[found nd']|e|] w2]; try done.
  destruct found; [done |].
  apply (IH _ _ _ _ _ _ _ Hrun). lia.
Qed.

(** The loop writes nothing but the record of the calls it makes. *)
Lemma scan_blocks_frame blocks :
  ∀ i x y nd w o w',
    scan_blocks blocks i vx vy x y nd w = (o, w') →
    heap w' = heap w ∧ figure w' = figure w ∧ stdout w' = stdout w.
Proof.
  induction blocks as [|b rest IH]; intros i x y nd w o w'; simpl.
  - by intros [= _ <-].
  - unfold bind, call_within_boundaries.
    destruct (within_boundaries b x y); simpl.
    + by intros [= _ <-].
    + intros Hrest. by apply IH in Hrest.
Qed.

Lemma trace_loop_frame fuel :
  ∀ x y first nd w o w',
    trace_loop fuel lazor_grid x y vx vy gx gy first nd w = (o, w') →
    heap w' = heap w ∧ figure w' = figure w ∧ stdout w' = stdout w.
Proof.
  induction fuel as [|fuel IH]; intros x y first nd w o w'; simpl.
  { by intros [= _ <-]. }
  destruct (in_interior x y gx gy || first); [| by intros [= _ <-]].
  unfold bind at 1. unfold get_placed_blocks.
  destruct (heap w !! placed_blocks lazor_grid) as [[blocks| | |]|];
    try by intros [= _ <-].
  unfold bind.
  destruct (scan_blocks blocks 0 vx vy (x + vx) (y + vy) nd w)
    as [[[found nd']|e|] w2] eqn:Hscan;
    apply scan_blocks_frame in Hscan as (H1 & H2 & H3).
  - destruct found.
    + destruct (in_bounds _ _ _ _); intros [= _ <-]; done.
    + intros Hrest. apply IH in Hrest as (H1' & H2' & H3').
      split_and!; congruence.
  - by intros [= _ <-].
  - by intros [= _ <-].
Qed.

End Tracer.

(** ** Runs *)

Section Runs.

Variable bs : list Block.
Variables vx vy gx gy : Z.

Lemma Run_first x y k ds cs : Run bs vx vy gx gy x y true k ds cs → (1 ≤ k)%nat.
Proof. inversion 1; lia. Qed.

Lemma Run_started x y first k ds cs :
  Run bs vx vy gx gy x y first k ds cs → (1 ≤ k)%nat →
  in_interior x y gx gy || first = true.
Proof. inversion 1; [lia | done | done]. Qed.

(** Before its last step a run stays strictly inside the grid and meets
    no block. *)
Lemma Run_inside x y first k ds cs :
  Run bs vx vy gx gy x y first k ds cs →
  ∀ j, (1 ≤ j < k)%nat →
    in_interior (x + Z.of_nat j * vx) (y + Z.of_nat j * vy) gx gy = true
    ∧ no_block_at bs (x + Z.of_nat j * vx) (y + Z.of_nat j * vy).
Proof.
  induction 1 as [x y Hout | x y first pre b post Hgo Hbs Hno Hb
                 | x y first k ds cs Hgo Hno Hrun IH];
    intros j Hj; [lia | lia |].
  destruct (decide (j = 1%nat)) as [-> | Hne].
  - replace (x + Z.of_nat 1 * vx) with (x + vx) by lia.
    replace (y + Z.of_nat 1 * vy) with (y + vy) by lia.
    split; [| done].
    apply Run_started in Hrun; [| lia].
    by rewrite orb_false_r in Hrun.
  - destruct j as [|j]; [lia |].
    replace (x + Z.of_nat (S j) * vx) with (x + vx + Z.of_nat j * vx) by lia.
    replace (y + Z.of_nat (S j) * vy) with (y + vy + Z.of_nat j * vy) by lia.
    apply IH. lia.
Qed.

Lemma within_calls_position i n x y :
  Forall (λ c, call_position c = (x, y)) (within_calls i n x y).
Proof. unfold within_calls. apply Forall_map, Forall_true. done. Qed.

(** Every call of a run is made at a point reached by stepping. *)
Lemma Run_calls x y first k ds cs :
  Run bs vx vy gx gy x y first k ds cs →
  Forall (λ c, ∃ j, (1 ≤ j ≤ k)%nat
               ∧ call_position c
                 = (x + Z.of_nat j * vx, y + Z.of_nat j * vy)) cs.
Proof.
  induction 1 as [x y Hout | x y first pre b post Hgo Hbs Hno Hb
                 | x y first k ds cs Hgo Hno Hrun IH].
  - constructor.
  - assert (Hpos : (x + vx, y + vy)
                   = (x + Z.of_nat 1 * vx, y + Z.of_nat 1 * vy))
      by (f_equal; lia).
    apply Forall_app. split.
    + eapply Forall_impl; [apply within_calls_position |].
      intros c Hc. exists 1%nat. split; [lia | congruence].
    + repeat constructor. exists 1%nat. split; [lia | done].
  - apply Forall_app. split.
    + eapply Forall_impl; [apply within_calls_position |].
      intros c Hc. exists 1%nat. split; [lia |].
      rewrite Hc. f_equal; lia.
    + eapply Forall_impl; [apply IH |].
      intros c (j & Hj & Hc). exists (S j). split; [lia |].
      rewrite Hc. f_equal; lia.
Qed.

(** How a run ends: on the first block in order that holds the point
    reached, or at a point that is not strictly inside the grid. *)
Lemma Run_end x y first k ds cs :
  Run bs vx vy gx gy x y first k ds cs →
  let ex := x + Z.of_nat k * vx in
  let ey := y + Z.of_nat k * vy in
  (∃ pre b post,
      (1 ≤ k)%nat ∧ bs = pre ++ b :: post ∧ no_block_at pre ex ey
      ∧ within_boundaries b ex ey = true
      ∧ ds = (if in_bounds ex ey gx gy
              then ensure_list (interact b (vx, vy) (ex, ey))
              else DList []))
  ∨ (in_interior ex ey gx gy = false ∧ ds = DList []
     ∧ ((1 ≤ k)%nat → no_block_at bs ex ey)).
Proof.
  induction 1 as [x y Hout | x y first pre b post Hgo Hbs Hno Hb
                 | x y first k ds cs Hgo Hno Hrun IH]; simpl.
  - right. replace (x + Z.of_nat 0 * vx) with x by lia.
    replace (y + Z.of_nat 0 * vy) with y by lia. split_and!; [done | done | lia].
  - left. exists pre, b, post.
    replace (x + Z.of_nat 1 * vx) with (x + vx) by lia.
    replace (y + Z.of_nat 1 * vy) with (y + vy) by lia.
    split_and!; (done || lia).
  - simpl in IH.
    replace (x + Z.of_nat (S k) * vx)
      with (x + vx + Z.of_nat k * vx) by lia.
    replace (y + Z.of_nat (S k) * vy)
      with (y + vy + Z.of_nat k * vy) by lia.
    destruct IH as [(pre & b & post & Hk & Hbs & Hpre & Hb & Hds)
                   | (Hout & Hds & Hfree)].
    + left. exists pre, b, post. split_and!; (done || lia).
    + right. split_and!; [done | done |]. intros _.
      destruct k as [|k]; [| apply Hfree; lia].
      replace (x + vx + Z.of_nat 0 * vx) with (x + vx) by lia.
      by replace (y + vy + Z.of_nat 0 * vy) with (y + vy) by lia.
Qed.

(** *** Every beam that moves ends its run *)

Hypothesis moving : vx ≠ 0 ∨ vy ≠ 0.

Lemma room_interior x y :
  in_interior x y gx gy = true → 0 < room vx vy gx gy x y ≤ Z.max gx gy - 1.
Proof.
  unfold in_interior, room. intros H.
  repeat case_match; lia.
Qed.

Lemma room_step x y :
  room vx vy gx gy (x + vx) (y + vy) ≤ room vx vy gx gy x y - 1.
Proof. unfold room. repeat case_match; lia. Qed.

Lemma Run_rest_exists (n : nat) :
  ∀ x y, room vx vy gx gy x y ≤ Z.of_nat n →
    ∃ k ds cs, Run bs vx vy gx gy x y false k ds cs ∧ (k ≤ n)%nat.
Proof.
  induction n as [|n IH]; intros x y Hroom.
  - exists 0%nat, (DList []), []. split; [| done]. constructor.
    destruct (in_interior x y gx gy) eqn:Hin; [| done].
    apply room_interior in Hin. lia.
  - destruct (in_interior x y gx gy) eqn:Hin.
    + destruct (blocks_at_cases bs (x + vx) (y + vy))
        as [Hno | (pre & b & post & Hbs & Hno & Hb)].
      * destruct (IH (x + vx) (y + vy)) as (k & ds & cs & Hrun & Hk).
        { pose proof (room_step x y). lia. }
        eexists (S k), ds, _. split; [| lia].
        apply Run_free; [by rewrite Hin | done | done].
      * eexists 1%nat, _, _. split; [| lia].
        eapply Run_hit; [by rewrite Hin | done | done | done].
    + exists 0%nat, (DList []), []. split; [by constructor | lia].
Qed.

(** A run from any start exists, and is no longer than the grid is
    large. *)
Lemma Run_exists x y :
  ∃ k ds cs, Run bs vx vy gx gy x y true k ds cs
             ∧ (k ≤ Z.to_nat (Z.max 1 (Z.max gx gy)))%nat.
Proof.
  destruct (blocks_at_cases bs (x + vx) (y + vy))
    as [Hno | (pre & b & post & Hbs & Hno & Hb)].
  - destruct (in_interior (x + vx) (y + vy) gx gy) eqn:Hin.
    + destruct (Run_rest_exists
                  (Z.to_nat (room vx vy gx gy (x + vx) (y + vy)))
                  (x + vx) (y + vy))
        as (k & ds & cs & Hrun & Hk); [lia |].
      apply room_interior in Hin.
      eexists (S k), ds, _. split; [| lia].
      apply Run_free; [by rewrite orb_true_r | done | done].
    + eexists 1%nat, (DList []), _. split; [| lia].
      apply Run_free; [by rewrite orb_true_r | done |].
      by constructor.
  - eexists 1%nat, _, _. split; [| lia].
    eapply Run_hit; [by rewrite orb_true_r | done | done | done].
Qed.

End Runs.

(** ** [find_lazor_endpoint] *)

(** A run from the start, with the flag [is_first_turn] set, is what
    [find_lazor_endpoint] returns, whatever bound it is given. *)
Lemma find_lazor_endpoint_run lazor_grid bs w x y vx vy gx gy k ds cs :
  has_blocks lazor_grid bs w →
  Run bs vx vy gx gy x y true k ds cs →
  (∀ fuel, (k < fuel)%nat →
     find_lazor_endpoint fuel lazor_grid x y vx vy gx gy w
     = (Returns (x + Z.of_nat k * vx, y + Z.of_nat k * vy, ds), log_calls cs w))
  ∧ (∀ fuel r w',
       find_lazor_endpoint fuel lazor_grid x y vx vy gx gy w = (Returns r, w') →
       r = (x + Z.of_nat k * vx, y + Z.of_nat k * vy, ds)
       ∧ w' = log_calls cs w).
Proof.
  intros Hw Hrun.
  assert (Hall : ∀ fuel, (k < fuel)%nat →
            find_lazor_endpoint fuel lazor_grid x y vx vy gx gy w
            = (Returns (x + Z.of_nat k * vx, y + Z.of_nat k * vy, ds),
               log_calls cs w)).
  { intros fuel Hfuel. unfold find_lazor_endpoint.
    by apply (trace_loop_run lazor_grid bs vx vy gx gy x y true k ds cs). }
  split; [done |]. intros fuel r w' Hret.
  unfold find_lazor_endpoint in Hret.
  pose proof (trace_loop_mono _ _ _ _ _ _ _ _ _ _ _ _ _ Hret (fuel `max` S k))
    as Hbig.
  specialize (Hbig ltac:(lia)).
  specialize (Hall (fuel `max` S k)%nat). unfold find_lazor_endpoint in Hall.
  rewrite Hall in Hbig by lia. by injection Hbig as <- <-.
Qed.

Lemma unit_direction_moving vx vy : unit_direction vx vy → vx ≠ 0 ∨ vy ≠ 0.
Proof. by intros (_ & _ & ?). Qed.

Lemma step_in_bounds x y vx vy gx gy :
  unit_direction vx vy →
  in_interior x y gx gy = true →
  in_bounds (x + vx) (y + vy) gx gy = true.
Proof. unfold unit_direction, in_interior, in_bounds. lia. Qed.

Lemma moved_away (k : nat) x y vx vy :
  (1 ≤ k)%nat → vx ≠ 0 ∨ vy ≠ 0 →
  (x + Z.of_nat k * vx, y + Z.of_nat k * vy) ≠ (x, y).
Proof. intros Hk Hv [= Hx Hy]. nia. Qed.

(** C2: for a direction with components in {-1, 0, 1}, not both zero, the
    end point returned is [(x + k*vx, y + k*vy)] for some [k >= 1], for
    every start point, also one on or outside the boundary; it is not the
    start point; and every call made on a block, collision checks
    included, is made at a point [(x + j*vx, y + j*vy)] with
    [1 <= j <= k], never at the start point. *)
Theorem find_lazor_endpoint_straight_line lazor_grid bs w x y vx vy gx gy :
  has_blocks lazor_grid bs w →
  unit_direction vx vy →
  ∃ (k : nat) ds cs,
    (1 ≤ k)%nat
    ∧ (∀ fuel, (k < fuel)%nat →
         find_lazor_endpoint fuel lazor_grid x y vx vy gx gy w
         = (Returns (x + Z.of_nat k * vx, y + Z.of_nat k * vy, ds),
            log_calls cs w))
    ∧ (∀ fuel r w',
         find_lazor_endpoint fuel lazor_grid x y vx vy gx gy w
         = (Returns r, w') →
         r = (x + Z.of_nat k * vx, y + Z.of_nat k * vy, ds)
         ∧ w' = log_calls cs w)
    ∧ (x + Z.of_nat k * vx, y + Z.of_nat k * vy) ≠ (x, y)
    ∧ Forall (λ c, call_position c ≠ (x, y)
                   ∧ ∃ j, (1 ≤ j ≤ k)%nat
                     ∧ call_position c
                       = (x + Z.of_nat j * vx, y + Z.of_nat j * vy)) cs.
Proof.
  intros Hw Hunit. pose proof (unit_direction_moving _ _ Hunit) as Hmove.
  destruct (Run_exists bs vx vy gx gy Hmove x y) as (k & ds & cs & Hrun & _).
  pose proof (Run_first _ _ _ _ _ _ _ _ _ _ Hrun) as Hk.
  destruct (find_lazor_endpoint_run _ _ _ _ _ _ _ _ _ _ _ _ Hw Hrun)
    as [Hall Honly].
  exists k, ds, cs. split_and!; [done | done | done | by apply moved_away |].
  eapply Forall_impl; [apply (Run_calls _ _ _ _ _ _ _ _ _ _ _ Hrun) |].
  intros c (j & Hj & Hc). split; [| by exists j].
  rewrite Hc. apply moved_away; [lia | done].
Qed.

Lemma find_lazor_endpoint_straight_line_witness :
  has_blocks Scenario.board [Scenario.reflect_block] Scenario.world
  ∧ unit_direction 1 1
  ∧ ∃ (k : nat) ds cs,
      (1 ≤ k)%nat
      ∧ (∀ fuel, (k < fuel)%nat →
           find_lazor_endpoint fuel Scenario.board 0 0 1 1 4 4 Scenario.world
           = (Returns (0 + Z.of_nat k * 1, 0 + Z.of_nat k * 1, ds),
              log_calls cs Scenario.world))
      ∧ (∀ fuel r w',
           find_lazor_endpoint fuel Scenario.board 0 0 1 1 4 4 Scenario.world
           = (Returns r, w') →
           r = (0 + Z.of_nat k * 1, 0 + Z.of_nat k * 1, ds)
           ∧ w' = log_calls cs Scenario.world)
      ∧ (0 + Z.of_nat k * 1, 0 + Z.of_nat k * 1) ≠ (0, 0)
      ∧ Forall (λ c, call_position c ≠ (0, 0)
                     ∧ ∃ j, (1 ≤ j ≤ k)%nat
                       ∧ call_position c
                         = (0 + Z.of_nat j * 1, 0 + Z.of_nat j * 1)) cs.
Proof.
  assert (Hw : has_blocks Scenario.board [Scenario.reflect_block]
                 Scenario.world) by reflexivity.
  assert (Hunit : unit_direction 1 1) by (unfold unit_direction; lia).
  split; [exact Hw |]. split; [exact Hunit |].
  exact (find_lazor_endpoint_straight_line Scenario.board
           [Scenario.reflect_block] Scenario.world 0 0 1 1 4 4 Hw Hunit).
Defined.

(** C9: for a direction with components in {-1, 0, 1}, not both zero, the
    stepping loop ends after some [k >= 1] steps, [k] no larger than the
    grid: every earlier point stepped to is strictly inside the grid and
    free of blocks, and the [k]-th point either lies in a block, or is
    free and is the first one not strictly inside the grid. *)
Theorem find_lazor_endpoint_terminates lazor_grid bs w x y vx vy gx gy :
  has_blocks lazor_grid bs w →
  unit_direction vx vy →
  ∃ k : nat,
    (1 ≤ k ≤ Z.to_nat (Z.max 1 (Z.max gx gy)))%nat
    ∧ (∀ fuel, (k < fuel)%nat →
         ∃ ds w',
           find_lazor_endpoint fuel lazor_grid x y vx vy gx gy w
           = (Returns (x + Z.of_nat k * vx, y + Z.of_nat k * vy, ds), w'))
    ∧ (∀ j, (1 ≤ j < k)%nat →
         in_interior (x + Z.of_nat j * vx) (y + Z.of_nat j * vy) gx gy = true
         ∧ no_block_at bs (x + Z.of_nat j * vx) (y + Z.of_nat j * vy))
    ∧ ((∃ b, b ∈ bs
             ∧ within_boundaries b (x + Z.of_nat k * vx)
                 (y + Z.of_nat k * vy) = true)
       ∨ (no_block_at bs (x + Z.of_nat k * vx) (y + Z.of_nat k * vy)
          ∧ in_interior (x + Z.of_nat k * vx) (y + Z.of_nat k * vy) gx gy
            = false)).
Proof.
  intros Hw Hunit. pose proof (unit_direction_moving _ _ Hunit) as Hmove.
  destruct (Run_exists bs vx vy gx gy Hmove x y) as (k & ds & cs & Hrun & Hle).
  pose proof (Run_first _ _ _ _ _ _ _ _ _ _ Hrun) as Hk.
  destruct (find_lazor_endpoint_run _ _ _ _ _ _ _ _ _ _ _ _ Hw Hrun)
    as [Hall _].
  exists k. split_and!; [done | done | | |].
  - intros fuel Hfuel. exists ds, (log_calls cs w). by apply Hall.
  - apply (Run_inside _ _ _ _ _ _ _ _ _ _ _ Hrun).
  - destruct (Run_end _ _ _ _ _ _ _ _ _ _ _ Hrun)
      as [(pre & b & post & _ & Hbs & _ & Hb & _) | (Hout & _ & Hfree)].
    + left. exists b. split; [| done].
      rewrite Hbs. apply elem_of_app. right. apply list_elem_of_here.
    + right. split; [by apply Hfree | done].
Qed.

Lemma find_lazor_endpoint_terminates_witness :
  has_blocks Scenario.board [Scenario.reflect_block] Scenario.world
  ∧ unit_direction 1 (-1)
  ∧ ∃ k : nat,
      (1 ≤ k ≤ Z.to_nat (Z.max 1 (Z.max 4 4)))%nat
      ∧ (∀ fuel, (k < fuel)%nat →
           ∃ ds w',
             find_lazor_endpoint fuel Scenario.board 2 2 1 (-1) 4 4
               Scenario.world
             = (Returns (2 + Z.of_nat k * 1, 2 + Z.of_nat k * -1, ds), w'))
      ∧ (∀ j, (1 ≤ j < k)%nat →
           in_interior (2 + Z.of_nat j * 1) (2 + Z.of_nat j * -1) 4 4 = true
           ∧ no_block_at [Scenario.reflect_block]
               (2 + Z.of_nat j * 1) (2 + Z.of_nat j * -1))
      ∧ ((∃ b, b ∈ [Scenario.reflect_block]
               ∧ within_boundaries b (2 + Z.of_nat k * 1)
                   (2 + Z.of_nat k * -1) = true)
         ∨ (no_block_at [Scenario.reflect_block]
              (2 + Z.of_nat k * 1) (2 + Z.of_nat k * -1)
            ∧ in_interior (2 + Z.of_nat k * 1) (2 + Z.of_nat k * -1) 4 4
              = false)).
Proof.
  assert (Hw : has_blocks Scenario.board [Scenario.reflect_block]
                 Scenario.world) by reflexivity.
  assert (Hunit : unit_direction 1 (-1)) by (unfold unit_direction; lia).
  split; [exact Hw |]. split; [exact Hunit |].
  exact (find_lazor_endpoint_terminates Scenario.board
           [Scenario.reflect_block] Scenario.world 2 2 1 (-1) 4 4 Hw Hunit).
Defined.

(** C5: for a direction with components in {-1, 0, 1}, not both zero, the
    end point [(x + k*vx, y + k*vy)] returned is within the inclusive
    bounds, or it is the first point stepped to, from a start that is not
    strictly inside the grid; every point stepped to before it is strictly
    inside the grid, so an end point out of bounds is the first point out
    of bounds reached; and it is one step past the last position strictly
    inside the grid, if there is one, and then within the inclusive
    bounds. *)
Theorem find_lazor_endpoint_end_reach lazor_grid bs w x y vx vy gx gy :
  has_blocks lazor_grid bs w →
  unit_direction vx vy →
  ∃ (k : nat) ds cs,
    (1 ≤ k)%nat
    ∧ (∀ fuel, (k < fuel)%nat →
         find_lazor_endpoint fuel lazor_grid x y vx vy gx gy w
         = (Returns (x + Z.of_nat k * vx, y + Z.of_nat k * vy, ds),
            log_calls cs w))
    ∧ (∀ fuel r w',
         find_lazor_endpoint fuel lazor_grid x y vx vy gx gy w
         = (Returns r, w') →
         r = (x + Z.of_nat k * vx, y + Z.of_nat k * vy, ds))
    ∧ (in_bounds (x + Z.of_nat k * vx) (y + Z.of_nat k * vy) gx gy = true
       ∨ (k = 1%nat ∧ in_interior x y gx gy = false))
    ∧ (∀ j, (1 ≤ j < k)%nat →
         in_interior (x + Z.of_nat j * vx) (y + Z.of_nat j * vy) gx gy = true
         ∧ in_bounds (x + Z.of_nat j * vx) (y + Z.of_nat j * vy) gx gy = true)
    ∧ (∀ j, (j < k)%nat →
         in_interior (x + Z.of_nat j * vx) (y + Z.of_nat j * vy) gx gy = true →
         (∀ i, (j < i < k)%nat →
            in_interior (x + Z.of_nat i * vx) (y + Z.of_nat i * vy) gx gy
            = false) →
         k = S j
         ∧ in_bounds (x + Z.of_nat k * vx) (y + Z.of_nat k * vy) gx gy = true).
Proof.
  intros Hw Hunit. pose proof (unit_direction_moving _ _ Hunit) as Hmove.
  destruct (Run_exists bs vx vy gx gy Hmove x y) as (k & ds & cs & Hrun & _).
  pose proof (Run_first _ _ _ _ _ _ _ _ _ _ Hrun) as Hk.
  pose proof (Run_inside _ _ _ _ _ _ _ _ _ _ _ Hrun) as Hinside.
  destruct (find_lazor_endpoint_run _ _ _ _ _ _ _ _ _ _ _ _ Hw Hrun)
    as [Hall Honly].
  assert (Hnext : ∀ j, (k = S j)%nat →
            in_interior (x + Z.of_nat j * vx) (y + Z.of_nat j * vy) gx gy
            = true →
            in_bounds (x + Z.of_nat k * vx) (y + Z.of_nat k * vy) gx gy = true).
  { intros j -> Hin.
    replace (x + Z.of_nat (S j) * vx) with (x + Z.of_nat j * vx + vx) by lia.
    replace (y + Z.of_nat (S j) * vy) with (y + Z.of_nat j * vy + vy) by lia.
    by apply step_in_bounds. }
  exists k, ds, cs. split_and!; [done | done | | | |].
  - intros fuel r w' Hret. by apply Honly in Hret as [-> _].
  - destruct k as [|[|k]]; [lia | |].
    + destruct (in_interior x y gx gy) eqn:Hin; [| by right].
      left. apply (Hnext 0%nat); [done |].
      replace (x + Z.of_nat 0 * vx) with x by lia.
      by replace (y + Z.of_nat 0 * vy) with y by lia.
    + left. apply (Hnext (S k)); [done |]. apply Hinside. lia.
  - intros j Hj. destruct (Hinside j Hj) as [Hin _]. split; [done |].
    revert Hin. unfold in_interior, in_bounds. lia.
  - intros j Hj Hin Hlast.
    assert (k = S j) as Hkj.
    { destruct (decide (k = S j)) as [|Hne]; [done |].
      destruct (Hinside (S j)) as [Hin' _]; [lia |].
      rewrite Hlast in Hin' by lia. done. }
    split; [done |]. by apply (Hnext j).
Qed.

Lemma find_lazor_endpoint_end_reach_witness :
  has_blocks Scenario.board [Scenario.reflect_block] Scenario.world
  ∧ unit_direction (-1) 0
  ∧ ∃ (k : nat) ds cs,
      (1 ≤ k)%nat
      ∧ (∀ fuel, (k < fuel)%nat →
           find_lazor_endpoint fuel Scenario.board 0 3 (-1) 0 4 4
             Scenario.world
           = (Returns (0 + Z.of_nat k * -1, 3 + Z.of_nat k * 0, ds),
              log_calls cs Scenario.world))
      ∧ (∀ fuel r w',
           find_lazor_endpoint fuel Scenario.board 0 3 (-1) 0 4 4
             Scenario.world
           = (Returns r, w') →
           r = (0 + Z.of_nat k * -1, 3 + Z.of_nat k * 0, ds))
      ∧ (in_bounds (0 + Z.of_nat k * -1) (3 + Z.of_nat k * 0) 4 4 = true
         ∨ (k = 1%nat ∧ in_interior 0 3 4 4 = false))
      ∧ (∀ j, (1 ≤ j < k)%nat →
           in_interior (0 + Z.of_nat j * -1) (3 + Z.of_nat j * 0) 4 4 = true
           ∧ in_bounds (0 + Z.of_nat j * -1) (3 + Z.of_nat j * 0) 4 4 = true)
      ∧ (∀ j, (j < k)%nat →
           in_interior (0 + Z.of_nat j * -1) (3 + Z.of_nat j * 0) 4 4 = true →
           (∀ i, (j < i < k)%nat →
              in_interior (0 + Z.of_nat i * -1) (3 + Z.of_nat i * 0) 4 4
              = false) →
           k = S j
           ∧ in_bounds (0 + Z.of_nat k * -1) (3 + Z.of_nat k * 0) 4 4 = true).
Proof.
  assert (Hw : has_blocks Scenario.board [Scenario.reflect_block]
                 Scenario.world) by reflexivity.
  assert (Hunit : unit_direction (-1) 0) by (unfold unit_direction; lia).
  split; [exact Hw |]. split; [exact Hunit |].
  exact (find_lazor_endpoint_end_reach Scenario.board
           [Scenario.reflect_block] Scenario.world 0 3 (-1) 0 4 4 Hw Hunit).
Defined.

(** A run that reaches a block after [k] free steps inside the grid. *)
Lemma Run_free_then_hit bs vx vy gx gy pre b post (k : nat) :
  bs = pre ++ b :: post →
  ∀ x y first,
    in_interior x y gx gy || first = true →
    (∀ j, (1 ≤ j ≤ k)%nat →
       in_interior (x + Z.of_nat j * vx) (y + Z.of_nat j * vy) gx gy = true
       ∧ no_block_at bs (x + Z.of_nat j * vx) (y + Z.of_nat j * vy)) →
    let ex := x + Z.of_nat (S k) * vx in
    let ey := y + Z.of_nat (S k) * vy in
    no_block_at pre ex ey →
    within_boundaries b ex ey = true →
    Run bs vx vy gx gy x y first (S k)
      (if in_bounds ex ey gx gy
       then ensure_list (interact b (vx, vy) (ex, ey))
       else DList [])
      (free_calls (length bs) x y vx vy k
         ++ within_calls 0 (S (length pre)) ex ey
         ++ [CallInteract (length pre) (vx, vy) (ex, ey)]).
Proof.
  intros Hbs. induction k as [|k IH]; intros x y first Hgo Hfree ex ey Hpre Hb.
  - subst ex ey.
    replace (x + Z.of_nat 1 * vx) with (x + vx) in * by lia.
    replace (y + Z.of_nat 1 * vy) with (y + vy) in * by lia.
    simpl. by eapply Run_hit.
  - subst ex ey. simpl free_calls. rewrite <- app_assoc.
    destruct (Hfree 1%nat) as [Hin1 Hno1]; [lia |].
    replace (x + Z.of_nat 1 * vx) with (x + vx) in * by lia.
    replace (y + Z.of_nat 1 * vy) with (y + vy) in * by lia.
    replace (x + Z.of_nat (S (S k)) * vx)
      with (x + vx + Z.of_nat (S k) * vx) in * by lia.
    replace (y + Z.of_nat (S (S k)) * vy)
      with (y + vy + Z.of_nat (S k) * vy) in * by lia.
    apply Run_free; [done | done |].
    apply IH; [by rewrite Hin1 | | done | done].
    intros j Hj.
    replace (x + vx + Z.of_nat j * vx) with (x + Z.of_nat (S j) * vx) by lia.
    replace (y + vy + Z.of_nat j * vy) with (y + Z.of_nat (S j) * vy) by lia.
    apply Hfree. lia.
Qed.

(** C3: when the first collision of a call happens at a point outside the
    inclusive bounds (the points stepped to before it are strictly inside
    the grid and free of blocks, and some block holds the [k]-th point),
    the call returns that point with an empty list of directions, whatever
    the block's [interact] returns. *)
Theorem find_lazor_endpoint_collision_out_of_bounds
  lazor_grid bs w x y vx vy gx gy (k : nat) :
  has_blocks lazor_grid bs w →
  (1 ≤ k)%nat →
  (∀ j, (1 ≤ j < k)%nat →
     in_interior (x + Z.of_nat j * vx) (y + Z.of_nat j * vy) gx gy = true
     ∧ no_block_at bs (x + Z.of_nat j * vx) (y + Z.of_nat j * vy)) →
  (∃ b, b ∈ bs
        ∧ within_boundaries b (x + Z.of_nat k * vx) (y + Z.of_nat k * vy)
          = true) →
  in_bounds (x + Z.of_nat k * vx) (y + Z.of_nat k * vy) gx gy = false →
  ∃ cs,
    (∀ fuel, (k < fuel)%nat →
       find_lazor_endpoint fuel lazor_grid x y vx vy gx gy w
       = (Returns (x + Z.of_nat k * vx, y + Z.of_nat k * vy, DList []),
          log_calls cs w))
    ∧ (∀ fuel r w',
         find_lazor_endpoint fuel lazor_grid x y vx vy gx gy w
         = (Returns r, w') →
         r = (x + Z.of_nat k * vx, y + Z.of_nat k * vy, DList [])).
Proof.
  intros Hw Hk Hfree (b0 & Hin0 & Hb0) Hout.
  destruct k as [|k]; [lia |].
  destruct (blocks_at_cases bs (x + Z.of_nat (S k) * vx)
              (y + Z.of_nat (S k) * vy))
    as [Hno | (pre & b & post & Hbs & Hpre & Hb)].
  { unfold no_block_at in Hno. rewrite Forall_forall in Hno.
    apply Hno in Hin0. congruence. }
  assert (Hrun := Run_free_then_hit bs vx vy gx gy pre b post k Hbs x y true
                    (orb_true_r _)).
  simpl in Hrun. rewrite Hout in Hrun.
  specialize (Hrun ltac:(intros j Hj; apply Hfree; lia) Hpre Hb).
  destruct (find_lazor_endpoint_run _ _ _ _ _ _ _ _ _ _ _ _ Hw Hrun)
    as [Hall Honly].
  eexists. split; [exact Hall |].
  intros fuel r w' Hret. by apply Honly in Hret as [-> _].
Qed.

Lemma find_lazor_endpoint_collision_out_of_bounds_witness :
  has_blocks Scenario.board [Scenario.block_at (-1) (-1) (RPair 1 1)]
    Scenario.outside_world
  ∧ ∃ cs,
      (∀ fuel, (1 < fuel)%nat →
         find_lazor_endpoint fuel Scenario.board 0 0 (-1) (-1) 4 4
           Scenario.outside_world
         = (Returns (0 + Z.of_nat 1 * -1, 0 + Z.of_nat 1 * -1, DList []),
            log_calls cs Scenario.outside_world))
      ∧ (∀ fuel r w',
           find_lazor_endpoint fuel Scenario.board 0 0 (-1) (-1) 4 4
             Scenario.outside_world
           = (Returns r, w') →
           r = (0 + Z.of_nat 1 * -1, 0 + Z.of_nat 1 * -1, DList [])).
Proof.
  assert (Hw : has_blocks Scenario.board
                 [Scenario.block_at (-1) (-1) (RPair 1 1)]
                 Scenario.outside_world) by reflexivity.
  split; [exact Hw |].
  apply (find_lazor_endpoint_collision_out_of_bounds Scenario.board
           [Scenario.block_at (-1) (-1) (RPair 1 1)] Scenario.outside_world
           0 0 (-1) (-1) 4 4 1 Hw).
  - lia.
  - intros j Hj. lia.
  - exists (Scenario.block_at (-1) (-1) (RPair 1 1)).
    split; [apply list_elem_of_here | reflexivity].
  - reflexivity.
Defined.

Lemma free_calls_spec n vx vy (k : nat) :
  ∀ x y,
    Forall (λ c, is_interact c = false
                 ∧ ∃ j, (1 ≤ j ≤ k)%nat
                   ∧ call_position c
                     = (x + Z.of_nat j * vx, y + Z.of_nat j * vy))
      (free_calls n x y vx vy k).
Proof.
  induction k as [|k IH]; intros x y; simpl; [constructor |].
  apply Forall_app. split.
  - unfold within_calls. apply Forall_map, Forall_true. intros i. simpl.
    split; [done |]. exists 1%nat. split; [lia |]. f_equal; lia.
  - eapply Forall_impl; [apply IH |].
    intros c (Hc & j & Hj & Hpos). split; [done |].
    exists (S j). split; [lia |]. rewrite Hpos. f_equal; lia.
Qed.

Lemma within_calls_spec n x y :
  Forall (λ c, is_interact c = false ∧ call_position c = (x, y)
               ∧ (call_block c < n)%nat) (within_calls 0 n x y).
Proof.
  unfold within_calls. apply Forall_map, Forall_forall.
  intros i Hi. apply elem_of_seq in Hi. simpl. split_and!; [done | done | lia].
Qed.

(** C6: at the point where a call first meets blocks, [interact] is
    invoked on the block that comes first in [get_placed_blocks()] among
    those that hold the point, whatever later blocks hold it too.  That
    block's answer alone makes the directions returned; it is the only
    [interact] call of the whole trace; and at that point no method of any
    later block is called, the scan having stopped. *)
Theorem find_lazor_endpoint_first_block_wins
  lazor_grid bs w x y vx vy gx gy (k i : nat) b :
  has_blocks lazor_grid bs w →
  (1 ≤ k)%nat →
  (∀ j, (1 ≤ j < k)%nat →
     in_interior (x + Z.of_nat j * vx) (y + Z.of_nat j * vy) gx gy = true
     ∧ no_block_at bs (x + Z.of_nat j * vx) (y + Z.of_nat j * vy)) →
  let ex := x + Z.of_nat k * vx in
  let ey := y + Z.of_nat k * vy in
  bs !! i = Some b →
  within_boundaries b ex ey = true →
  (∀ i' b', (i' < i)%nat → bs !! i' = Some b' →
            within_boundaries b' ex ey = false) →
  let cs := free_calls (length bs) x y vx vy (k - 1)
              ++ within_calls 0 (S i) ex ey
              ++ [CallInteract i (vx, vy) (ex, ey)] in
  (∀ fuel, (k < fuel)%nat →
     find_lazor_endpoint fuel lazor_grid x y vx vy gx gy w
     = (Returns (ex, ey,
                 if in_bounds ex ey gx gy
                 then ensure_list (interact b (vx, vy) (ex, ey))
                 else DList []),
        log_calls cs w))
  ∧ (∀ c, c ∈ cs → is_interact c = true →
          c = CallInteract i (vx, vy) (ex, ey))
  ∧ (∀ c, c ∈ cs → call_position c = (ex, ey) → (call_block c ≤ i)%nat).
Proof.
  intros Hw Hk Hfree ex ey Hi Hb Hearlier cs.
  destruct k as [|k]; [lia |].
  destruct (first_block_split bs i b ex ey Hi Hearlier)
    as (Hbs & Hpre & Hlen).
  assert (Hrun := Run_free_then_hit bs vx vy gx gy _ b _ k Hbs x y true
                    (orb_true_r _)).
  simpl in Hrun. rewrite Hlen in Hrun.
  specialize (Hrun ltac:(intros j Hj; apply Hfree; lia) Hpre Hb).
  destruct (find_lazor_endpoint_run _ _ _ _ _ _ _ _ _ _ _ _ Hw Hrun)
    as [Hall _].
  assert (Hcs : cs = free_calls (length bs) x y vx vy k
                       ++ within_calls 0 (S i) ex ey
                       ++ [CallInteract i (vx, vy) (ex, ey)]).
  { subst cs. by replace (S k - 1)%nat with k by lia. }
  rewrite Hcs. clear Hcs cs.
  pose proof (free_calls_spec (length bs) vx vy k x y) as Hfc.
  pose proof (within_calls_spec (S i) ex ey) as Hwc.
  rewrite Forall_forall in Hfc. rewrite Forall_forall in Hwc.
  split_and!.
  - exact Hall.
  - intros c Hc Hint.
    apply elem_of_app in Hc as [Hc | Hc];
      [apply Hfc in Hc as [Hc _]; congruence |].
    apply elem_of_app in Hc as [Hc | Hc];
      [apply Hwc in Hc as [Hc _]; congruence |].
    by apply list_elem_of_singleton in Hc.
  - intros c Hc Hpos.
    apply elem_of_app in Hc as [Hc | Hc].
    + apply Hfc in Hc as (_ & j & Hj & Hpos').
      destruct (Hfree j) as [_ Hno]; [lia |].
      rewrite Hpos in Hpos'. injection Hpos' as Hx Hy.
      fold ex ey in Hx, Hy. rewrite <- Hx, <- Hy in Hno.
      unfold no_block_at in Hno. rewrite Forall_lookup in Hno.
      apply (Hno i b) in Hi. congruence.
    + apply elem_of_app in Hc as [Hc | Hc].
      * apply Hwc in Hc as (_ & _ & Hlt). lia.
      * apply list_elem_of_singleton in Hc as ->. simpl. lia.
Qed.

Lemma find_lazor_endpoint_first_block_wins_witness :
  let bs := [Scenario.block_at 3 3 RNone;
             Scenario.block_at 1 1 (RPair 1 (-1));
             Scenario.block_at 1 1 (RSeq [(1, 1); (-1, 1)])] in
  let cs := free_calls (length bs) 0 0 1 1 (1 - 1)
              ++ within_calls 0 2 (0 + Z.of_nat 1 * 1) (0 + Z.of_nat 1 * 1)
              ++ [CallInteract 1 (1, 1)
                    (0 + Z.of_nat 1 * 1, 0 + Z.of_nat 1 * 1)] in
  has_blocks Scenario.board bs Scenario.overlap_world
  ∧ (∀ fuel, (1 < fuel)%nat →
       find_lazor_endpoint fuel Scenario.board 0 0 1 1 4 4
         Scenario.overlap_world
       = (Returns (0 + Z.of_nat 1 * 1, 0 + Z.of_nat 1 * 1,
                   if in_bounds (0 + Z.of_nat 1 * 1) (0 + Z.of_nat 1 * 1) 4 4
                   then ensure_list
                          (interact (Scenario.block_at 1 1 (RPair 1 (-1)))
                             (1, 1)
                             (0 + Z.of_nat 1 * 1, 0 + Z.of_nat 1 * 1))
                   else DList []),
          log_calls cs Scenario.overlap_world))
  ∧ (∀ c, c ∈ cs → is_interact c = true →
          c = CallInteract 1 (1, 1) (0 + Z.of_nat 1 * 1, 0 + Z.of_nat 1 * 1))
  ∧ (∀ c, c ∈ cs →
          call_position c = (0 + Z.of_nat 1 * 1, 0 + Z.of_nat 1 * 1) →
          (call_block c ≤ 1)%nat).
Proof.
  intros bs cs.
  assert (Hw : has_blocks Scenario.board bs Scenario.overlap_world)
    by reflexivity.
  split; [exact Hw |].
  apply (find_lazor_endpoint_first_block_wins Scenario.board bs
           Scenario.overlap_world 0 0 1 1 4 4 1 1
           (Scenario.block_at 1 1 (RPair 1 (-1))) Hw).
  - lia.
  - intros j Hj. lia.
  - reflexivity.
  - reflexivity.
  - intros i' b' Hi' Hb'. destruct i' as [|i']; [| lia].
    injection Hb' as <-. reflexivity.
Defined.

(** *** What the third component is *)

Lemma ensure_list_pair dx dy : ensure_list (RPair dx dy) = DList [(dx, dy)].
Proof. reflexivity. Qed.

Lemma ensure_list_seq ds : ensure_list (RSeq ds) = DList ds.
Proof. destruct ds as [|d ds]; simpl; [done |]. by rewrite map_id. Qed.

Lemma ensure_list_None : ensure_list RNone = DNone.
Proof. reflexivity. Qed.

(** Where no block answers [None], the third component is a list: empty
    when the beam leaves the grid, the block's directions otherwise. *)
Lemma find_lazor_endpoint_list_unless_None
  lazor_grid bs w x y vx vy gx gy fuel ex ey nd w' :
  has_blocks lazor_grid bs w →
  vx ≠ 0 ∨ vy ≠ 0 →
  (∀ b d p, b ∈ bs → interact b d p ≠ RNone) →
  find_lazor_endpoint fuel lazor_grid x y vx vy gx gy w
  = (Returns (ex, ey, nd), w') →
  ∃ ds, nd = DList ds.
Proof.
  intros Hw Hmove Hsome Hret.
  destruct (Run_exists bs vx vy gx gy Hmove x y) as (k & ds & cs & Hrun & _).
  destruct (find_lazor_endpoint_run _ _ _ _ _ _ _ _ _ _ _ _ Hw Hrun)
    as [_ Honly].
  destruct (Honly _ _ _ Hret) as [Hr _]. injection Hr as _ _ Hnd. subst nd.
  destruct (Run_end _ _ _ _ _ _ _ _ _ _ _ Hrun)
    as [(pre & b & post & _ & Hbs & _ & _ & ->) | (_ & -> & _)]; [| by eexists].
  destruct (in_bounds _ _ _ _); [| by eexists].
  specialize (Hsome b (vx, vy)
                (x + Z.of_nat k * vx, y + Z.of_nat k * vy)).
  destruct (interact b _ _) as [|dx dy|ds'].
  - exfalso. apply Hsome; [| done]. rewrite Hbs.
    apply elem_of_app. right. apply list_elem_of_here.
  - by eexists.
  - rewrite ensure_list_seq. by eexists.
Qed.

(** C7, at a block that absorbs the beam by returning [None]: the third
    component returned is that [None], not an empty list. *)
Theorem find_lazor_endpoint_passes_None_through fuel :
  find_lazor_endpoint (S fuel) Scenario.board 0 0 1 1 4 4
    Scenario.absorbing_world
  = (Returns (1, 1, DNone),
     log_calls [CallWithin 0 1 1; CallInteract 0 (1, 1) (1, 1)]
       Scenario.absorbing_world).
Proof.
  unfold find_lazor_endpoint.
  rewrite (trace_loop_hit Scenario.board [Scenario.block_at 1 1 RNone]
             1 1 4 4 fuel 0 0 true (DList []) Scenario.absorbing_world
             [] (Scenario.block_at 1 1 RNone) []);
    [reflexivity | reflexivity | reflexivity | reflexivity | constructor
    | reflexivity].
Qed.

(** *** The zero direction *)

Lemma trace_loop_never_raises lazor_grid bs vx vy gx gy fuel :
  ∀ x y first nd w e,
    has_blocks lazor_grid bs w →
    (trace_loop fuel lazor_grid x y vx vy gx gy first nd w).1 ≠ Raises e.
Proof.
  induction fuel as [|fuel IH]; intros x y first nd w e Hw; [done |].
  destruct (in_interior x y gx gy || first) eqn:Hgo;
    [| simpl; by rewrite Hgo].
  destruct (blocks_at_cases bs (x + vx) (y + vy))
    as [Hno | (pre & b & post & Hbs & Hno & Hb)].
  - rewrite (trace_loop_free lazor_grid bs) by done. by apply IH.
  - by rewrite (trace_loop_hit lazor_grid bs _ _ _ _ _ _ _ _ _ _ pre b post).
Qed.

Lemma trace_loop_stands_still lazor_grid bs gx gy x y fuel :
  no_block_at bs x y →
  in_interior x y gx gy = true →
  ∀ first nd w,
    has_blocks lazor_grid bs w →
    (trace_loop fuel lazor_grid x y 0 0 gx gy first nd w).1 = OutOfFuel.
Proof.
  intros Hno Hin. induction fuel as [|fuel IH]; intros first nd w Hw; [done |].
  rewrite (trace_loop_free lazor_grid bs);
    [| done | by rewrite Hin | by rewrite !Z.add_0_r].
  rewrite !Z.add_0_r. by apply IH.
Qed.

(** C8, as the code has it: the zero direction is not rejected and no
    error is raised.  The first step leaves the beam where it starts;
    if a block holds the start point the call returns it, with the
    directions of the first such block, or none out of bounds; if no
    block holds it and it is not strictly inside the grid the call
    returns it with no directions; if no block holds it and it is
    strictly inside the grid the loop never ends. *)
Theorem find_lazor_endpoint_zero_direction lazor_grid bs w x y gx gy :
  has_blocks lazor_grid bs w →
  (∀ fuel e,
     (find_lazor_endpoint fuel lazor_grid x y 0 0 gx gy w).1 ≠ Raises e)
  ∧ (∀ i b,
       bs !! i = Some b → within_boundaries b x y = true →
       (∀ i' b', (i' < i)%nat → bs !! i' = Some b' →
                 within_boundaries b' x y = false) →
       ∀ fuel,
         (find_lazor_endpoint (S fuel) lazor_grid x y 0 0 gx gy w).1
         = Returns (x, y,
                    if in_bounds x y gx gy
                    then ensure_list (interact b (0, 0) (x, y))
                    else DList []))
  ∧ (no_block_at bs x y → in_interior x y gx gy = false →
     ∀ fuel,
       (find_lazor_endpoint (S (S fuel)) lazor_grid x y 0 0 gx gy w).1
       = Returns (x, y, DList []))
  ∧ (no_block_at bs x y → in_interior x y gx gy = true →
     ∀ fuel,
       (find_lazor_endpoint fuel lazor_grid x y 0 0 gx gy w).1 = OutOfFuel).
Proof.
  intros Hw. unfold find_lazor_endpoint. split_and!.
  - intros fuel e. by apply (trace_loop_never_raises lazor_grid bs).
  - intros i b Hi Hb Hearlier fuel.
    destruct (first_block_split bs i b x y Hi Hearlier) as (Hbs & Hpre & _).
    rewrite (trace_loop_hit lazor_grid bs _ _ _ _ _ _ _ _ _ _ _ b _ Hw
               (orb_true_r _) Hbs);
      rewrite ?Z.add_0_r; done.
  - intros Hno Hout fuel.
    rewrite (trace_loop_free lazor_grid bs);
      [| done | apply orb_true_r | by rewrite !Z.add_0_r].
    rewrite !Z.add_0_r. by rewrite trace_loop_exit.
  - intros Hno Hin fuel. by apply (trace_loop_stands_still lazor_grid bs).
Qed.

Lemma find_lazor_endpoint_zero_direction_witness :
  has_blocks Scenario.board [] Scenario.empty_world
  ∧ (∀ fuel e,
       (find_lazor_endpoint fuel Scenario.board 1 1 0 0 4 4
          Scenario.empty_world).1 ≠ Raises e)
  ∧ (∀ fuel,
       (find_lazor_endpoint fuel Scenario.board 1 1 0 0 4 4
          Scenario.empty_world).1 = OutOfFuel).
Proof.
  assert (Hw : has_blocks Scenario.board [] Scenario.empty_world)
    by reflexivity.
  destruct (find_lazor_endpoint_zero_direction Scenario.board []
              Scenario.empty_world 1 1 4 4 Hw) as (Hnever & _ & _ & Hloop).
  split; [exact Hw |]. split; [exact Hnever |].
  apply Hloop; [constructor | reflexivity].
Defined.

(** C8 as stated fails: on a board without blocks, the call from the
    corner [(0, 0)] with direction [(0, 0)] returns [(0, 0, [])]; no bound
    on the loop makes it raise an error. *)
Lemma zero_direction_is_accepted :
  find_lazor_endpoint 2 Scenario.board 0 0 0 0 4 4 Scenario.empty_world
  = (Returns (0, 0, DList []), Scenario.empty_world)
  ∧ ¬ ∃ fuel e,
        (find_lazor_endpoint fuel Scenario.board 0 0 0 0 4 4
           Scenario.empty_world).1 = Raises e.
Proof.
  split; [by vm_compute |].
  intros (fuel & e & Hraise).
  by apply (trace_loop_never_raises Scenario.board [] 0 0 4 4) in Hraise.
Qed.

(** ** The beam loop *)

Lemma list_nonempty_spec lazors ls w :
  heap w !! lazors = Some (ObjLasers ls) →
  list_nonempty lazors w = (Returns (bool_decide (ls ≠ [])), w).
Proof. unfold list_nonempty. by intros ->. Qed.

Lemma list_pop_spec lazors rest item w :
  heap w !! lazors = Some (ObjLasers (rest ++ [item])) →
  list_pop lazors w
  = (Returns item, set_heap (<[lazors := ObjLasers rest]> (heap w)) w).
Proof.
  unfold list_pop. intros ->.
  rewrite reverse_app, reverse_singleton. simpl.
  by rewrite reverse_involutive.
Qed.

Lemma list_append_spec lazors ls item w :
  heap w !! lazors = Some (ObjLasers ls) →
  list_append lazors item w
  = (Returns (),
     set_heap (<[lazors := ObjLasers (ls ++ [item])]> (heap w)) w).
Proof. unfold list_append. by intros ->. Qed.

(** The beam queued for an outgoing direction at an end point. *)
Lemma queue_new_beams_spec lazors end_x end_y (ds : list Direction) :
  ∀ ls w,
    heap w !! lazors = Some (ObjLasers ls) →
    let queued := map (λ d : Direction, (end_x, end_y, d.1, d.2)) ds in
    ∃ w',
      queue_new_beams lazors end_x end_y ds w = (Returns (), w')
      ∧ heap w' = <[lazors := ObjLasers (ls ++ queued)]> (heap w)
      ∧ calls w' = calls w ∧ figure w' = figure w
      ∧ stdout w' = stdout w ++ queued.
Proof.
  induction ds as [|d ds IH]; intros ls w Hl; simpl.
  - exists w. rewrite !app_nil_r. split_and!; try done.
    by rewrite insert_id.
  - unfold bind at 1. unfold print_queuing. unfold bind at 1.
    rewrite (list_append_spec lazors ls) by done.
    edestruct (IH (ls ++ [(end_x, end_y, d.1, d.2)])) as (w' & -> & Hh & Hc & Hf & Hs).
    { simpl. apply lookup_insert_eq. }
    exists w'. simpl in *. rewrite Hh, Hc, Hf, Hs, insert_insert_eq.
    by rewrite <- !app_assoc.
Qed.

(** One turn of [while lazors]: the last beam is popped and traced, its
    segment is drawn, and the beams it spawns are appended. *)
Lemma beam_iteration_spec steps lazor_grid lazors gx gy w rest
  sx sy vx vy ex ey nd w2 :
  heap w !! lazors = Some (ObjLasers (rest ++ [(sx, sy, vx, vy)])) →
  find_lazor_endpoint steps lazor_grid sx sy vx vy gx gy
    (set_heap (<[lazors := ObjLasers rest]> (heap w)) w)
  = (Returns (ex, ey, nd), w2) →
  let queued :=
    if in_bounds ex ey gx gy && dirs_truthy nd
    then map (λ d : Direction, (ex, ey, d.1, d.2)) (dirs_items nd)
    else [] in
  ∃ w',
    beam_iteration steps lazor_grid lazors gx gy w = (Returns (), w')
    ∧ heap w' = <[lazors := ObjLasers (rest ++ queued)]> (heap w)
    ∧ calls w' = calls w2
    ∧ figure w'
      = figure w ++ [{| arrow_x := sx; arrow_y := sy;
                        arrow_dx := ex - sx; arrow_dy := ey - sy |}]
    ∧ stdout w' = stdout w ++ queued.
Proof.
  intros Hl Hfind queued. unfold beam_iteration.
  unfold bind at 1. rewrite (list_pop_spec lazors rest (sx, sy, vx, vy)) by done.
  unfold bind at 1. rewrite Hfind.
  unfold find_lazor_endpoint in Hfind.
  apply trace_loop_frame in Hfind as (Hh & Hf & Hs). simpl in Hh, Hf, Hs.
  unfold bind at 1. unfold ax_arrow. subst queued.
  destruct (in_bounds ex ey gx gy); simpl;
    [destruct (dirs_truthy nd); simpl |].
  - edestruct (queue_new_beams_spec lazors ex ey (dirs_items nd) rest
                 (add_arrow {| arrow_x := sx; arrow_y := sy;
                               arrow_dx := ex - sx; arrow_dy := ey - sy |} w2))
      as (w' & Hq & Hh' & Hc' & Hf' & Hs').
    { simpl. rewrite Hh. apply lookup_insert_eq. }
    exists w'. simpl in *.
    rewrite Hq, Hh', Hc', Hf', Hs', Hh, Hf, Hs, insert_insert_eq. done.
  - eexists. split; [reflexivity |]. simpl.
    rewrite Hh, Hf, Hs, !app_nil_r. done.
  - eexists. split; [reflexivity |]. simpl.
    rewrite Hh, Hf, Hs, !app_nil_r. done.
Qed.

(** C4: after a popped beam is traced, beams are queued if and only if
    the end point is within the inclusive bounds and the directions
    returned are a non-empty sequence; then one beam is appended per
    direction, in order, each starting at the end point; an empty
    sequence or [None] queues nothing. *)
Theorem beam_iteration_queues steps lazor_grid lazors gx gy w rest
  sx sy vx vy ex ey nd w2 :
  heap w !! lazors = Some (ObjLasers (rest ++ [(sx, sy, vx, vy)])) →
  find_lazor_endpoint steps lazor_grid sx sy vx vy gx gy
    (set_heap (<[lazors := ObjLasers rest]> (heap w)) w)
  = (Returns (ex, ey, nd), w2) →
  ∃ w' queued,
    beam_iteration steps lazor_grid lazors gx gy w = (Returns (), w')
    ∧ heap w' !! lazors = Some (ObjLasers (rest ++ queued))
    ∧ stdout w' = stdout w ++ queued
    ∧ (queued ≠ [] ↔
       in_bounds ex ey gx gy = true ∧ ∃ d ds, nd = DList (d :: ds))
    ∧ (in_bounds ex ey gx gy = true →
       ∀ ds, nd = DList ds →
         queued = map (λ d : Direction, (ex, ey, d.1, d.2)) ds)
    ∧ (nd = DList [] ∨ nd = DNone → queued = []).
Proof.
  intros Hl Hfind.
  destruct (beam_iteration_spec _ _ _ _ _ _ _ _ _ _ _ _ _ _ _ Hl Hfind)
    as (w' & Hrun & Hh & _ & _ & Hs).
  eexists w', _. split; [exact Hrun |].
  split; [rewrite Hh; apply lookup_insert_eq |].
  split; [exact Hs |]. split_and!.
  - destruct (in_bounds ex ey gx gy); simpl; [| by split; [| intros [? _]]].
    destruct nd as [|[|d ds]]; simpl; split; try done.
    + by intros (_ & ? & ? & ?).
    + by intros (_ & ? & ? & ?).
    + intros _. split; [done |]. by exists d, ds.
  - intros -> ds ->. simpl. by destruct ds.
  - intros [-> | ->]; simpl; by rewrite andb_false_r.
Qed.

Lemma beam_iteration_queues_witness :
  let w2 := (find_lazor_endpoint 3 Scenario.board 0 0 1 1 4 4
               (set_heap (<[4%positive := ObjLasers []]>
                            (heap Scenario.world)) Scenario.world)).2 in
  heap Scenario.world !! 4%positive = Some (ObjLasers ([] ++ [(0, 0, 1, 1)]))
  ∧ find_lazor_endpoint 3 Scenario.board 0 0 1 1 4 4
      (set_heap (<[4%positive := ObjLasers []]> (heap Scenario.world))
         Scenario.world)
    = (Returns (2, 2, DList [(1, -1)]), w2)
  ∧ ∃ w' queued,
      beam_iteration 3 Scenario.board 4%positive 4 4 Scenario.world
      = (Returns (), w')
      ∧ heap w' !! 4%positive = Some (ObjLasers ([] ++ queued))
      ∧ stdout w' = stdout Scenario.world ++ queued
      ∧ (queued ≠ [] ↔
         in_bounds 2 2 4 4 = true ∧ ∃ d ds, DList [(1, -1)] = DList (d :: ds))
      ∧ (in_bounds 2 2 4 4 = true →
         ∀ ds, DList [(1, -1)] = DList ds →
           queued = map (λ d : Direction, (2, 2, d.1, d.2)) ds)
      ∧ (DList [(1, -1)] = DList [] ∨ DList [(1, -1)] = DNone → queued = []).
Proof.
  intros w2.
  assert (Hl : heap Scenario.world !! 4%positive
               = Some (ObjLasers ([] ++ [(0, 0, 1, 1)]))) by reflexivity.
  assert (Hfind : find_lazor_endpoint 3 Scenario.board 0 0 1 1 4 4
                    (set_heap (<[4%positive := ObjLasers []]>
                                 (heap Scenario.world)) Scenario.world)
                  = (Returns (2, 2, DList [(1, -1)]), w2))
    by (vm_compute; reflexivity).
  split; [exact Hl |]. split; [exact Hfind |].
  exact (beam_iteration_queues 3 Scenario.board 4%positive 4 4 Scenario.world
           [] 0 0 1 1 2 2 (DList [(1, -1)]) w2 Hl Hfind).
Defined.

(** *** What the loop writes *)

Lemma writes_only_refl l w : writes_only l w w.
Proof. by intros l' _. Qed.

Lemma writes_only_trans l w1 w2 w3 :
  writes_only l w1 w2 → writes_only l w2 w3 → writes_only l w1 w3.
Proof. intros H12 H23 l' Hne. by rewrite H23, H12. Qed.

Lemma writes_only_insert l obj w :
  writes_only l w (set_heap (<[l := obj]> (heap w)) w).
Proof. intros l' Hne. simpl. by rewrite lookup_insert_ne. Qed.

Lemma writes_only_same_heap l w w' : heap w' = heap w → writes_only l w w'.
Proof. intros Hh l' _. by rewrite Hh. Qed.

Lemma bind_writes_only {A B : Type} (m : M A) (k : A → M B) l :
  (∀ w o w', m w = (o, w') → writes_only l w w') →
  (∀ a w o w', k a w = (o, w') → writes_only l w w') →
  ∀ w o w', bind m k w = (o, w') → writes_only l w w'.
Proof.
  intros Hm Hk w o w'. unfold bind.
  destruct (m w) as [[a|e|] w1] eqn:Hmw; apply Hm in Hmw.
  - intros Hkw. apply Hk in Hkw. by eapply writes_only_trans.
  - by intros [= _ <-].
  - by intros [= _ <-].
Qed.

Lemma list_nonempty_writes l w o w' :
  list_nonempty l w = (o, w') → writes_only l w w'.
Proof.
  unfold list_nonempty.
  destruct (heap w !! l) as [[| | |ls]|]; intros [= _ <-];
    apply writes_only_refl.
Qed.

Lemma list_pop_writes l w o w' :
  list_pop l w = (o, w') → writes_only l w w'.
Proof.
  unfold list_pop.
  destruct (heap w !! l) as [[| | |ls]|]; try (intros [= _ <-];
    apply writes_only_refl).
  destruct (reverse ls); intros [= _ <-];
    [apply writes_only_refl | apply writes_only_insert].
Qed.

Lemma list_append_writes l item w o w' :
  list_append l item w = (o, w') → writes_only l w w'.
Proof.
  unfold list_append.
  destruct (heap w !! l) as [[| | |ls]|]; intros [= _ <-];
    (apply writes_only_refl || apply writes_only_insert).
Qed.

Lemma queue_new_beams_writes l ex ey ds :
  ∀ w o w', queue_new_beams l ex ey ds w = (o, w') → writes_only l w w'.
Proof.
  induction ds as [|d ds IH]; simpl.
  - intros w o w' [= _ <-]. apply writes_only_refl.
  - apply bind_writes_only.
    { intros w o w' [= _ <-]. by apply writes_only_same_heap. }
    intros _. apply bind_writes_only; [apply list_append_writes |].
    intros _. apply IH.
Qed.

Lemma find_lazor_endpoint_writes l steps lazor_grid x y vx vy gx gy w o w' :
  find_lazor_endpoint steps lazor_grid x y vx vy gx gy w = (o, w') →
  writes_only l w w'.
Proof.
  intros Hfind. apply trace_loop_frame in Hfind as [Hh _].
  by apply writes_only_same_heap.
Qed.

Lemma beam_iteration_writes steps lazor_grid l gx gy w o w' :
  beam_iteration steps lazor_grid l gx gy w = (o, w') → writes_only l w w'.
Proof.
  revert w o w'. unfold beam_iteration.
  apply bind_writes_only; [apply list_pop_writes |].
  intros [[[sx sy] vx] vy].
  apply bind_writes_only; [apply find_lazor_endpoint_writes |].
  intros [[ex ey] nd].
  apply bind_writes_only.
  { intros w o w' [= _ <-]. by apply writes_only_same_heap. }
  intros _ w o w'.
  destruct (in_bounds ex ey gx gy); [destruct (dirs_truthy nd) |].
  - apply queue_new_beams_writes.
  - intros [= _ <-]. apply writes_only_refl.
  - intros [= _ <-]. apply writes_only_refl.
Qed.

Lemma beam_loop_writes fuel steps lazor_grid l gx gy :
  ∀ w o w',
    beam_loop fuel steps lazor_grid l gx gy w = (o, w') → writes_only l w w'.
Proof.
  induction fuel as [|fuel IH]; simpl.
  - intros w o w' [= _ <-]. apply writes_only_refl.
  - apply bind_writes_only; [apply list_nonempty_writes |].
    intros [|].
    + apply bind_writes_only; [apply beam_iteration_writes |].
      intros _. apply IH.
    + intros w o w' [= _ <-]. apply writes_only_refl.
Qed.

Lemma lasers_copy_spec lazor_grid w o w1 :
  lasers_copy lazor_grid w = (o, w1) →
  (∃ ls, heap w !! lasers lazor_grid = Some (ObjLasers ls)
         ∧ o = Returns (fresh (dom (heap w)))
         ∧ w1 = set_heap (<[fresh (dom (heap w)) := ObjLasers ls]> (heap w)) w)
  ∨ (o = Raises AttributeError ∧ w1 = w).
Proof.
  unfold lasers_copy.
  destruct (heap w !! lasers lazor_grid) as [[| | |ls]|]; intros [= <- <-];
    try (by right).
  left. by exists ls.
Qed.

Lemma fresh_not_allocated (h : gmap loc pyobj) : h !! fresh (dom h) = None.
Proof. apply not_elem_of_dom. apply is_fresh. Qed.

(** C10: [find_lazor_endpoint] leaves the store as it finds it, and the
    beam loop leaves every object there was before it as it was, the
    board's placed blocks, [orig_grid], [points] and [lasers] among them,
    whether the loop returns, raises or runs on: the list it pops from and
    appends to is a new object, holding what [lasers] held. *)
Theorem tracing_leaves_board fuel steps lazor_grid gx gy w :
  (∀ x y vx vy,
     heap (find_lazor_endpoint steps lazor_grid x y vx vy gx gy w).2 = heap w)
  ∧ (∀ l obj,
       heap w !! l = Some obj →
       heap (trace_lazor_beams fuel steps lazor_grid gx gy w).2 !! l
       = Some obj)
  ∧ (∀ lazors w1,
       lasers_copy lazor_grid w = (Returns lazors, w1) →
       heap w !! lazors = None
       ∧ lazors ≠ lasers lazor_grid
       ∧ heap w1 !! lazors = heap w !! lasers lazor_grid
       ∧ writes_only lazors w w1).
Proof.
  split_and!.
  - intros x y vx vy.
    destruct (find_lazor_endpoint steps lazor_grid x y vx vy gx gy w)
      as [o w'] eqn:Hfind.
    unfold find_lazor_endpoint in Hfind.
    by apply trace_loop_frame in Hfind as [Hh _].
  - intros l obj Hl. unfold trace_lazor_beams, bind.
    destruct (lasers_copy lazor_grid w) as [o w1] eqn:Hcopy.
    apply lasers_copy_spec in Hcopy
      as [(ls & _ & -> & ->) | [-> ->]]; [| done].
    destruct (beam_loop _ _ _ _ _ _ _) as [o w'] eqn:Hloop.
    apply beam_loop_writes in Hloop. simpl.
    assert (l ≠ fresh (dom (heap w))) as Hne.
    { intros ->. by rewrite fresh_not_allocated in Hl. }
    rewrite (Hloop l Hne). simpl. by rewrite lookup_insert_ne.
  - intros lazors w1 Hcopy.
    apply lasers_copy_spec in Hcopy
      as [(ls & Hls & [= ->] & ->) | [[=] _]].
    split_and!.
    + apply fresh_not_allocated.
    + intros Heq. rewrite <- Heq, fresh_not_allocated in Hls. done.
    + simpl. by rewrite lookup_insert_eq.
    + apply writes_only_insert.
Qed.

Lemma tracing_leaves_board_witness :
  let w' := (trace_lazor_beams 3 3 Scenario.board 4 4 Scenario.world).2 in
  heap w' !! placed_blocks Scenario.board
  = Some (ObjBlocks [Scenario.reflect_block])
  ∧ heap w' !! orig_grid Scenario.board
    = Some (ObjGrid [["o"; "o"]; ["o"; "o"]])
  ∧ heap w' !! points Scenario.board = Some (ObjPoints [])
  ∧ heap w' !! lasers Scenario.board = Some (ObjLasers [(0, 0, 1, 1)]).
Proof.
  intros w'.
  destruct (tracing_leaves_board 3 3 Scenario.board 4 4 Scenario.world)
    as (_ & Hkept & _).
  split_and!; apply Hkept; reflexivity.
Defined.

(** *** The scenario of the reflecting block *)

Lemma beam_loop_step fuel steps lazor_grid lazors gx gy w rest beam w' :
  heap w !! lazors = Some (ObjLasers (rest ++ [beam])) →
  beam_iteration steps lazor_grid lazors gx gy w = (Returns (), w') →
  beam_loop (S fuel) steps lazor_grid lazors gx gy w
  = beam_loop fuel steps lazor_grid lazors gx gy w'.
Proof.
  intros Hl Hiter. simpl. unfold bind at 1.
  rewrite (list_nonempty_spec lazors (rest ++ [beam])) by done.
  rewrite bool_decide_eq_true_2 by (by destruct rest).
  unfold bind at 1. by rewrite Hiter.
Qed.

Lemma beam_loop_done fuel steps lazor_grid lazors gx gy w :
  heap w !! lazors = Some (ObjLasers []) →
  beam_loop (S fuel) steps lazor_grid lazors gx gy w = (Returns (), w).
Proof.
  intros Hl. simpl. unfold bind.
  by rewrite (list_nonempty_spec lazors []).
Qed.

Section ReflectScenario.

Variable lazor_grid : Board.
Variable b : Block.
Hypothesis b_boundary :
  ∀ x y, within_boundaries b x y = true ↔ x = 2 ∧ y = 2.
Hypothesis b_reflects : ensure_list (interact b (1, 1) (2, 2)) = DList [(1, -1)].

Lemma b_misses x y : (x, y) ≠ (2, 2) → no_block_at [b] x y.
Proof.
  intros Hne. repeat constructor.
  destruct (within_boundaries b x y) eqn:Hb; [| done].
  apply b_boundary in Hb as [-> ->]. done.
Qed.

(** The laser from [(0, 0)] along [(1, 1)] stops on the block. *)
Lemma first_beam steps w :
  has_blocks lazor_grid [b] w → (2 < steps)%nat →
  find_lazor_endpoint steps lazor_grid 0 0 1 1 4 4 w
  = (Returns (2, 2, DList [(1, -1)]),
     log_calls [CallWithin 0 1 1; CallWithin 0 2 2;
                CallInteract 0 (1, 1) (2, 2)] w).
Proof.
  intros Hw Hsteps.
  assert (Hrun : Run [b] 1 1 4 4 0 0 true 2
                   (if in_bounds 2 2 4 4
                    then ensure_list (interact b (1, 1) (2, 2))
                    else DList [])
                   ([CallWithin 0 1 1]
                      ++ [CallWithin 0 2 2; CallInteract 0 (1, 1) (2, 2)])).
  { apply (Run_free [b] 1 1 4 4 0 0 true 1); [done | by apply b_misses |].
    apply (Run_hit [b] 1 1 4 4 1 1 false [] b []);
      [done | done | constructor | by apply b_boundary]. }
  change (in_bounds 2 2 4 4) with true in Hrun. rewrite b_reflects in Hrun.
  destruct (find_lazor_endpoint_run _ _ _ _ _ _ _ _ _ _ _ _ Hw Hrun)
    as [Hall _].
  by apply Hall.
Qed.

(** The reflected beam from [(2, 2)] along [(1, -1)] leaves the grid at
    the corner [(4, 0)]. *)
Lemma second_beam steps w :
  has_blocks lazor_grid [b] w → (2 < steps)%nat →
  find_lazor_endpoint steps lazor_grid 2 2 1 (-1) 4 4 w
  = (Returns (4, 0, DList []),
     log_calls [CallWithin 0 3 1; CallWithin 0 4 0] w).
Proof.
  intros Hw Hsteps.
  assert (Hrun : Run [b] 1 (-1) 4 4 2 2 true 2 (DList [])
                   ([CallWithin 0 3 1] ++ [CallWithin 0 4 0] ++ [])).
  { apply (Run_free [b] 1 (-1) 4 4 2 2 true 1); [done | by apply b_misses |].
    apply (Run_free [b] 1 (-1) 4 4 3 1 false 0);
      [done | by apply b_misses |].
    by apply (Run_exit [b] 1 (-1) 4 4 4 0). }
  destruct (find_lazor_endpoint_run _ _ _ _ _ _ _ _ _ _ _ _ Hw Hrun)
    as [Hall _].
  by apply Hall.
Qed.

(** The beam loop on this board: two segments, one beam queued. *)
Lemma reflect_scenario_run fuel steps w :
  has_blocks lazor_grid [b] w →
  heap w !! lasers lazor_grid = Some (ObjLasers [(0, 0, 1, 1)]) →
  (2 < fuel)%nat → (2 < steps)%nat →
  ∃ w',
    trace_lazor_beams fuel steps lazor_grid 4 4 w = (Returns (), w')
    ∧ map segment_of (figure w')
      = map segment_of (figure w) ++ [(0, 0, 2, 2); (2, 2, 4, 0)]
    ∧ stdout w' = stdout w ++ [(2, 2, 1, -1)]
    ∧ heap w' = <[fresh (dom (heap w)) := ObjLasers []]> (heap w).
Proof.
  intros Hw Hlasers Hfuel Hsteps.
  destruct fuel as [|[|[|fuel]]]; try lia. clear Hfuel.
  set (l := fresh (dom (heap w))).
  assert (Hl : placed_blocks lazor_grid ≠ l).
  { intros Heq. unfold has_blocks in Hw. rewrite Heq in Hw.
    unfold l in Hw. by rewrite fresh_not_allocated in Hw. }
  unfold trace_lazor_beams. unfold bind at 1. unfold lasers_copy.
  rewrite Hlasers. fold l.
  set (w1 := set_heap (<[l := ObjLasers [(0, 0, 1, 1)]]> (heap w)) w).
  (* first turn: the laser *)
  edestruct (beam_iteration_spec steps lazor_grid l 4 4 w1 [] 0 0 1 1)
    as (wa & Ha & Hha & _ & Hfa & Hsa).
  { simpl. apply lookup_insert_eq. }
  { apply first_beam; [| done]. unfold has_blocks. simpl.
    by rewrite !lookup_insert_ne. }
  rewrite (beam_loop_step _ _ _ _ _ _ _ [] (0, 0, 1, 1) wa);
    [| simpl; apply lookup_insert_eq | done].
  change (in_bounds 2 2 4 4 && dirs_truthy (DList [(1, -1)])) with true
    in Hha, Hsa.
  simpl in Hha, Hfa, Hsa.
  (* second turn: the reflected beam *)
  edestruct (beam_iteration_spec steps lazor_grid l 4 4 wa [] 2 2 1 (-1))
    as (wb & Hb & Hhb & _ & Hfb & Hsb).
  { rewrite Hha. simpl. apply lookup_insert_eq. }
  { apply second_beam; [| done]. unfold has_blocks. simpl.
    by rewrite lookup_insert_ne, Hha, !lookup_insert_ne. }
  rewrite (beam_loop_step _ _ _ _ _ _ _ [] (2, 2, 1, -1) wb);
    [| rewrite Hha; apply lookup_insert_eq | done].
  change (in_bounds 4 0 4 4 && dirs_truthy (DList [])) with false
    in Hhb, Hsb.
  simpl in Hhb, Hfb, Hsb.
  (* third turn: nothing left *)
  rewrite beam_loop_done by (rewrite Hhb; apply lookup_insert_eq).
  exists wb. split_and!.
  - done.
  - rewrite Hfb, Hfa, !map_app. simpl. by rewrite <- app_assoc.
  - by rewrite Hsb, Hsa, app_nil_r.
  - by rewrite Hhb, Hha, !insert_insert_eq.
Qed.

End ReflectScenario.

(** C1, as the code has it: with bounds 4 by 4, the single laser
    [(0, 0, 1, 1)] and one block that holds exactly the point [(2, 2)] and
    turns the direction [(1, 1)] into the single direction [(1, -1)], the
    beam loop draws the segment from [(0, 0)] to [(2, 2)] and then the
    segment from [(2, 2)] to [(4, 0)], queues the one beam
    [(2, 2, 1, -1)] and ends with an empty list of beams. *)
Theorem reflect_scenario_segments lazor_grid b w fuel steps :
  has_blocks lazor_grid [b] w →
  heap w !! lasers lazor_grid = Some (ObjLasers [(0, 0, 1, 1)]) →
  (∀ x y, within_boundaries b x y = true ↔ x = 2 ∧ y = 2) →
  ensure_list (interact b (1, 1) (2, 2)) = DList [(1, -1)] →
  (2 < fuel)%nat → (2 < steps)%nat →
  ∃ w',
    trace_lazor_beams fuel steps lazor_grid 4 4 w = (Returns (), w')
    ∧ map segment_of (figure w')
      = map segment_of (figure w) ++ [(0, 0, 2, 2); (2, 2, 4, 0)]
    ∧ stdout w' = stdout w ++ [(2, 2, 1, -1)]
    ∧ heap w' = <[fresh (dom (heap w)) := ObjLasers []]> (heap w).
Proof.
  intros Hw Hlasers Hboundary Hreflects Hfuel Hsteps.
  by apply (reflect_scenario_run lazor_grid b Hboundary Hreflects).
Qed.

Lemma reflect_scenario_segments_witness :
  ∃ w',
    trace_lazor_beams 3 3 Scenario.board 4 4 Scenario.world = (Returns (), w')
    ∧ map segment_of (figure w')
      = map segment_of (figure Scenario.world) ++ [(0, 0, 2, 2); (2, 2, 4, 0)]
    ∧ stdout w' = stdout Scenario.world ++ [(2, 2, 1, -1)]
    ∧ heap w'
      = <[fresh (dom (heap Scenario.world)) := ObjLasers []]>
          (heap Scenario.world).
Proof.
  apply (reflect_scenario_segments Scenario.board Scenario.reflect_block
           Scenario.world 3 3).
  - reflexivity.
  - reflexivity.
  - intros x y. simpl. lia.
  - reflexivity.
  - lia.
  - lia.
Defined.

(** C1 as stated fails: on this board no run of the beam loop draws the
    segments [(0, 0) -> (2, 2)] and [(2, 2) -> (2, 0)]. *)
Lemma scenario_second_segment_differs :
  ¬ ∃ fuel steps w',
      trace_lazor_beams fuel steps Scenario.board 4 4 Scenario.world
      = (Returns (), w')
      ∧ map segment_of (figure w') = [(0, 0, 2, 2); (2, 2, 2, 0)].
Proof.
  intros (fuel & steps & w' & Hrun & Hseg).
  destruct fuel as [|[|[|fuel]]]; destruct steps as [|[|[|steps]]];
    vm_compute in Hrun; try discriminate Hrun;
    injection Hrun as <-; vm_compute in Hseg; discriminate Hseg.
Qed.

(** On that board [save_laser_image] runs the beam loop with the bounds
    4 by 4, twice the two rows and two columns of [orig_grid]. *)
Lemma save_laser_image_scenario fuel steps :
  save_laser_image fuel steps Scenario.board None Scenario.world
  = trace_lazor_beams fuel steps Scenario.board 4 4 Scenario.world.
Proof. reflexivity. Qed.

(** The solution overlay of [save_laser_image], which comes before the
    beam loop and is no part of it, does write into the board's
    [orig_grid]. *)
Lemma save_laser_image_overlay_writes_orig_grid :
  heap (save_laser_image 3 3 Scenario.board (Some [(0, 0, "ReflectBlock")])
          Scenario.world).2 !! orig_grid Scenario.board
  = Some (ObjGrid [["A"; "o"]; ["o"; "o"]]).
Proof. by vm_compute. Qed.

(** * Further properties *)

(** ** [find_lazor_endpoint] *)

Lemma trace_loop_directions_in_bounds lazor_grid vx vy gx gy fuel :
  ∀ x y first nd0 w ex ey nd w',
    trace_loop fuel lazor_grid x y vx vy gx gy first nd0 w
    = (Returns (ex, ey, nd), w') →
    nd ≠ DList [] →
    in_bounds ex ey gx gy = true.
Proof.
  induction fuel as [|fuel IH]; intros x y first nd0 w ex ey nd w';
    [done |]. simpl.
  destruct (in_interior x y gx gy || first); [| by intros [= _ _ <- _]].
  unfold bind.
  destruct (get_placed_blocks lazor_grid w) as [[blocks|e|] w1]; try done.
  destruct (scan_blocks blocks 0 vx vy (x + vx) (y + vy) nd0 w1)
    as [[[found nd']|e|] w2]; try done.
  destruct found; [| apply IH].
  destruct (in_bounds (x + vx) (y + vy) gx gy) eqn:Hin.
  - by intros [= <- <- _ _].
  - by intros [= _ _ <- _].
Qed.

(** X1: whenever [find_lazor_endpoint] returns something other than the
    empty list as its third component, the end point it returns is within
    the inclusive bounds; this holds for every direction and every
    block. *)
Theorem find_lazor_endpoint_directions_in_bounds
  fuel lazor_grid x y vx vy gx gy w ex ey nd w' :
  find_lazor_endpoint fuel lazor_grid x y vx vy gx gy w
  = (Returns (ex, ey, nd), w') →
  nd ≠ DList [] →
  in_bounds ex ey gx gy = true.
Proof. apply trace_loop_directions_in_bounds. Qed.

Lemma find_lazor_endpoint_directions_in_bounds_witness :
  let w' := (find_lazor_endpoint 3 Scenario.board 0 0 1 1 4 4
               Scenario.world).2 in
  find_lazor_endpoint 3 Scenario.board 0 0 1 1 4 4 Scenario.world
  = (Returns (2, 2, DList [(1, -1)]), w')
  ∧ DList [(1, -1)] ≠ DList []
  ∧ in_bounds 2 2 4 4 = true.
Proof.
  intros w'.
  assert (Hfind : find_lazor_endpoint 3 Scenario.board 0 0 1 1 4 4
                    Scenario.world
                  = (Returns (2, 2, DList [(1, -1)]), w'))
    by (vm_compute; reflexivity).
  assert (Hne : DList [(1, -1)] ≠ DList []) by discriminate.
  split; [exact Hfind |]. split; [exact Hne |].
  exact (find_lazor_endpoint_directions_in_bounds 3 Scenario.board 0 0 1 1
           4 4 Scenario.world 2 2 (DList [(1, -1)]) w' Hfind Hne).
Defined.

Lemma within_calls_not_interact i n x y :
  Forall (λ c, is_interact c = false) (within_calls i n x y).
Proof. unfold within_calls. apply Forall_map, Forall_true. done. Qed.

Lemma trace_loop_interact_last lazor_grid vx vy gx gy fuel :
  ∀ x y first nd0 w o w',
    trace_loop fuel lazor_grid x y vx vy gx gy first nd0 w = (o, w') →
    ∃ cs,
      w' = log_calls cs w
      ∧ ((Forall (λ c, is_interact c = false) cs
          ∧ ∀ ex ey nd, o = Returns (ex, ey, nd) → nd = DList [])
         ∨ (∃ before c ex ey nd,
              cs = before ++ [c]
              ∧ Forall (λ c, is_interact c = false) before
              ∧ is_interact c = true
              ∧ o = Returns (ex, ey, nd)
              ∧ call_position c = (ex, ey))).
Proof.
  induction fuel as [|fuel IH]; intros x y first nd0 w o w'.
  { intros [= <- <-]. exists []. rewrite log_calls_nil.
    split; [done |]. left. split; [constructor | done]. }
  destruct (in_interior x y gx gy || first) eqn:Hgo.
  2:{ simpl. rewrite Hgo. intros [= <- <-]. exists [].
      rewrite log_calls_nil. split; [done |]. left.
      split; [constructor |]. by intros ex ey nd [= _ _ <-]. }
  destruct (heap w !! placed_blocks lazor_grid) as [obj|] eqn:Hheap.
  2:{ simpl. rewrite Hgo. unfold bind at 1, get_placed_blocks.
      rewrite Hheap. intros [= <- <-]. exists [].
      rewrite log_calls_nil. split; [done |]. left.
      split; [constructor | done]. }
  destruct obj as [blocks| | |];
    try (simpl; rewrite Hgo; unfold bind at 1, get_placed_blocks;
         rewrite Hheap; intros [= <- <-]; exists [];
         rewrite log_calls_nil; split; [done |]; left;
         split; [constructor | done]).
  destruct (blocks_at_cases blocks (x + vx) (y + vy))
    as [Hno | (pre & b & post & Hbs & Hno & Hb)].
  - rewrite (trace_loop_free lazor_grid blocks) by done.
    intros Hrest. apply IH in Hrest as (cs & -> & Hcs).
    exists (within_calls 0 (length blocks) (x + vx) (y + vy) ++ cs).
    rewrite log_calls_app. split; [done |].
    destruct Hcs as [(Hall & Hempty)
                    | (before & c & ex & ey & nd & -> & Hbefore & Hc & Ho
                       & Hpos)].
    + left. split; [| done].
      apply Forall_app. split; [apply within_calls_not_interact | done].
    + right. exists (within_calls 0 (length blocks) (x + vx) (y + vy)
                       ++ before), c, ex, ey, nd.
      rewrite app_assoc. split_and!; try done.
      apply Forall_app. split; [apply within_calls_not_interact | done].
  - rewrite (trace_loop_hit lazor_grid blocks _ _ _ _ _ _ _ _ _ _ pre b post)
      by done.
    intros [= <- <-]. eexists. split; [reflexivity |]. right.
    exists (within_calls 0 (S (length pre)) (x + vx) (y + vy)),
      (CallInteract (length pre) (vx, vy) (x + vx, y + vy)),
      (x + vx), (y + vy),
      (if in_bounds (x + vx) (y + vy) gx gy
       then ensure_list (interact b (vx, vy) (x + vx, y + vy))
       else DList []).
    split_and!; [done | apply within_calls_not_interact | done | done | done].
Qed.

(** X2: in one call of [find_lazor_endpoint], [interact] is invoked at
    most once; if it is, it is the last method call of the trace, made at
    the end point returned; if it is not, the directions returned are the
    empty list. *)
Theorem find_lazor_endpoint_interact_last
  fuel lazor_grid x y vx vy gx gy w :
  let run := find_lazor_endpoint fuel lazor_grid x y vx vy gx gy w in
  ∃ cs,
    run.2 = log_calls cs w
    ∧ ((Forall (λ c, is_interact c = false) cs
        ∧ ∀ ex ey nd, run.1 = Returns (ex, ey, nd) → nd = DList [])
       ∨ (∃ before c ex ey nd,
            cs = before ++ [c]
            ∧ Forall (λ c, is_interact c = false) before
            ∧ is_interact c = true
            ∧ run.1 = Returns (ex, ey, nd)
            ∧ call_position c = (ex, ey))).
Proof.
  intros run. subst run. unfold find_lazor_endpoint.
  destruct (trace_loop fuel lazor_grid x y vx vy gx gy true (DList []) w)
    as [o w'] eqn:Hrun.
  by apply trace_loop_interact_last in Hrun.
Qed.

Lemma Run_cost bs vx vy gx gy x y first k ds cs :
  Run bs vx vy gx gy x y first k ds cs →
  (length cs ≤ k * length bs + 1)%nat.
Proof.
  induction 1 as [x y Hout | x y first pre b post Hgo Hbs Hno Hb
                 | x y first k ds cs Hgo Hno Hrun IH].
  - simpl. lia.
  - rewrite Hbs, !length_app. unfold within_calls.
    rewrite length_map, length_seq. simpl. lia.
  - rewrite length_app. unfold within_calls.
    rewrite length_map, length_seq. lia.
Qed.

(** X3: for a direction that is not zero, a call of [find_lazor_endpoint]
    that returns has made at most [max(1, gx, gy) * len(blocks) + 1]
    method calls on blocks. *)
Theorem find_lazor_endpoint_cost
  fuel lazor_grid bs x y vx vy gx gy w r w' :
  has_blocks lazor_grid bs w →
  vx ≠ 0 ∨ vy ≠ 0 →
  find_lazor_endpoint fuel lazor_grid x y vx vy gx gy w = (Returns r, w') →
  ∃ cs,
    calls w' = calls w ++ cs
    ∧ (length cs ≤ Z.to_nat (Z.max 1 (Z.max gx gy)) * length bs + 1)%nat.
Proof.
  intros Hw Hmove Hret.
  destruct (Run_exists bs vx vy gx gy Hmove x y) as (k & ds & cs & Hrun & Hk).
  destruct (find_lazor_endpoint_run _ _ _ _ _ _ _ _ _ _ _ _ Hw Hrun)
    as [_ Honly].
  destruct (Honly _ _ _ Hret) as [_ ->].
  exists cs. split; [done |].
  apply Run_cost in Hrun.
  pose proof (Nat.mul_le_mono_r _ _ (length bs) Hk). lia.
Qed.

Lemma find_lazor_endpoint_cost_witness :
  let w' := (find_lazor_endpoint 3 Scenario.board 0 0 1 1 4 4
               Scenario.overlap_world).2 in
  ∃ cs,
    calls w' = calls Scenario.overlap_world ++ cs
    ∧ (length cs ≤ Z.to_nat (Z.max 1 (Z.max 4 4)) * 3 + 1)%nat.
Proof.
  intros w'.
  apply (find_lazor_endpoint_cost 3 Scenario.board
           [Scenario.block_at 3 3 RNone;
            Scenario.block_at 1 1 (RPair 1 (-1));
            Scenario.block_at 1 1 (RSeq [(1, 1); (-1, 1)])]
           0 0 1 1 4 4 Scenario.overlap_world (1, 1, DList [(1, -1)]) w').
  - reflexivity.
  - left. lia.
  - vm_compute. reflexivity.
Defined.

(** ** The beam loop *)

(** X5: in a turn of the beam loop every direction the tracer returns is
    queued: the bounds test of line 149 never holds a beam back, because
    the tracer returns directions only with an end point within the
    bounds. *)
Theorem beam_iteration_queues_all steps lazor_grid lazors gx gy w rest
  sx sy vx vy ex ey nd w2 :
  heap w !! lazors = Some (ObjLasers (rest ++ [(sx, sy, vx, vy)])) →
  find_lazor_endpoint steps lazor_grid sx sy vx vy gx gy
    (set_heap (<[lazors := ObjLasers rest]> (heap w)) w)
  = (Returns (ex, ey, nd), w2) →
  ∃ w',
    beam_iteration steps lazor_grid lazors gx gy w = (Returns (), w')
    ∧ heap w' !! lazors
      = Some (ObjLasers (rest ++ map (queued_beam ex ey) (dirs_items nd)))
    ∧ stdout w' = stdout w ++ map (queued_beam ex ey) (dirs_items nd).
Proof.
  intros Hl Hfind.
  destruct (beam_iteration_spec _ _ _ _ _ _ _ _ _ _ _ _ _ _ _ Hl Hfind)
    as (w' & Hrun & Hh & _ & _ & Hs).
  assert (Hq : (if in_bounds ex ey gx gy && dirs_truthy nd
                then map (λ d : Direction, (ex, ey, d.1, d.2)) (dirs_items nd)
                else [])
               = map (queued_beam ex ey) (dirs_items nd)).
  { destruct (dirs_truthy nd) eqn:Htruthy.
    - unfold find_lazor_endpoint in Hfind.
      rewrite (trace_loop_directions_in_bounds _ _ _ _ _ _ _ _ _ _ _ _ _ _ _
                 Hfind); [done |].
      by intros ->.
    - rewrite andb_false_r. by destruct nd as [|[|d ds]]. }
  rewrite Hq in Hh, Hs.
  exists w'. split_and!; [done | | done].
  rewrite Hh. apply lookup_insert_eq.
Qed.

Lemma beam_iteration_queues_all_witness :
  let w0 := Scenario.world_with
              [Scenario.block_at 1 1 (RSeq [(1, 1); (-1, 1)])]
              [(0, 0, 1, 1)] in
  let w2 := (find_lazor_endpoint 3 Scenario.board 0 0 1 1 4 4
               (set_heap (<[4%positive := ObjLasers []]> (heap w0)) w0)).2 in
  ∃ w',
    beam_iteration 3 Scenario.board 4%positive 4 4 w0 = (Returns (), w')
    ∧ heap w' !! 4%positive
      = Some (ObjLasers ([] ++ map (queued_beam 1 1)
                                 (dirs_items (DList [(1, 1); (-1, 1)]))))
    ∧ stdout w'
      = stdout w0 ++ map (queued_beam 1 1)
                       (dirs_items (DList [(1, 1); (-1, 1)])).
Proof.
  intros w0 w2.
  apply (beam_iteration_queues_all 3 Scenario.board 4%positive 4 4 w0 []
           0 0 1 1 1 1 (DList [(1, 1); (-1, 1)]) w2).
  - reflexivity.
  - vm_compute. reflexivity.
Defined.

(** X9: the list of beams is used as a stack: after a turn that queues
    the directions [ds ++ [d]], the next beam popped is the one of the
    last direction [d], and the beams of [ds] stay on top of the older
    ones. *)
Theorem beam_iteration_then_pop steps lazor_grid lazors gx gy w rest
  sx sy vx vy ex ey ds d w2 :
  heap w !! lazors = Some (ObjLasers (rest ++ [(sx, sy, vx, vy)])) →
  find_lazor_endpoint steps lazor_grid sx sy vx vy gx gy
    (set_heap (<[lazors := ObjLasers rest]> (heap w)) w)
  = (Returns (ex, ey, DList (ds ++ [d])), w2) →
  ∃ w' w'',
    beam_iteration steps lazor_grid lazors gx gy w = (Returns (), w')
    ∧ list_pop lazors w' = (Returns (queued_beam ex ey d), w'')
    ∧ heap w'' !! lazors
      = Some (ObjLasers (rest ++ map (queued_beam ex ey) ds)).
Proof.
  intros Hl Hfind.
  destruct (beam_iteration_spec _ _ _ _ _ _ _ _ _ _ _ _ _ _ _ Hl Hfind)
    as (w' & Hrun & Hh & _ & _ & _).
  unfold find_lazor_endpoint in Hfind.
  rewrite (trace_loop_directions_in_bounds _ _ _ _ _ _ _ _ _ _ _ _ _ _ _
             Hfind) in Hh by (by destruct ds).
  replace (dirs_truthy (DList (ds ++ [d]))) with true in Hh
    by (by destruct ds).
  simpl in Hh. rewrite map_app in Hh. simpl in Hh.
  exists w'. eexists. split; [done |].
  rewrite (list_pop_spec lazors (rest ++ map (queued_beam ex ey) ds)
             (queued_beam ex ey d)).
  - split; [reflexivity |]. simpl. apply lookup_insert_eq.
  - rewrite Hh, lookup_insert_eq. by rewrite <- app_assoc.
Qed.

Lemma beam_iteration_then_pop_witness :
  let w0 := Scenario.world_with
              [Scenario.block_at 1 1 (RSeq [(1, 1); (-1, 1)])]
              [(0, 0, 1, 1)] in
  ∃ w' w'',
    beam_iteration 3 Scenario.board 4%positive 4 4 w0 = (Returns (), w')
    ∧ list_pop 4%positive w' = (Returns (queued_beam 1 1 (-1, 1)), w'')
    ∧ heap w'' !! 4%positive
      = Some (ObjLasers ([] ++ map (queued_beam 1 1) [(1, 1)])).
Proof.
  intros w0.
  apply (beam_iteration_then_pop 3 Scenario.board 4%positive 4 4 w0 []
           0 0 1 1 1 1 [(1, 1)] (-1, 1)
           (find_lazor_endpoint 3 Scenario.board 0 0 1 1 4 4
              (set_heap (<[4%positive := ObjLasers []]> (heap w0)) w0)).2).
  - reflexivity.
  - vm_compute. reflexivity.
Defined.

(** A turn that returns has popped a beam, drawn one arrow and printed
    what it appended. *)
Lemma beam_iteration_returns steps lazor_grid lazors gx gy w w' :
  beam_iteration steps lazor_grid lazors gx gy w = (Returns (), w') →
  ∃ rest beam queued a,
    heap w !! lazors = Some (ObjLasers (rest ++ [beam]))
    ∧ heap w' = <[lazors := ObjLasers (rest ++ queued)]> (heap w)
    ∧ figure w' = figure w ++ [a]
    ∧ stdout w' = stdout w ++ queued.
Proof.
  intros Hrun. pose proof Hrun as Hrun0.
  unfold beam_iteration in Hrun. unfold bind at 1 in Hrun.
  unfold list_pop in Hrun.
  destruct (heap w !! lazors) as [[| | |ls]|] eqn:Hl; try done.
  destruct (reverse ls) as [|beam front] eqn:Hrev; [done |].
  assert (Hls : ls = reverse front ++ [beam]).
  { apply (f_equal reverse) in Hrev.
    by rewrite reverse_involutive, reverse_cons in Hrev. }
  subst ls. destruct beam as [[[sx sy] vx] vy].
  unfold bind at 1 in Hrun.
  destruct (find_lazor_endpoint steps lazor_grid sx sy vx vy gx gy _)
    as [[[[ex ey] nd]|e|] w2] eqn:Hfind; try done.
  destruct (beam_iteration_spec _ _ _ _ _ _ _ _ _ _ _ _ _ _ _ Hl Hfind)
    as (wx & Hx & Hh & _ & Hf & Hs).
  rewrite Hrun0 in Hx. injection Hx as <-.
  by eexists (reverse front), (sx, sy, vx, vy), _, _.
Qed.

Lemma beam_loop_returns steps lazor_grid lazors gx gy fuel :
  ∀ w w' ls,
    beam_loop fuel steps lazor_grid lazors gx gy w = (Returns (), w') →
    heap w !! lazors = Some (ObjLasers ls) →
    ∃ arrows prints,
      figure w' = figure w ++ arrows
      ∧ stdout w' = stdout w ++ prints
      ∧ length arrows = (length ls + length prints)%nat
      ∧ heap w' !! lazors = Some (ObjLasers []).
Proof.
  induction fuel as [|fuel IH]; intros w w' ls Hrun Hl; [done |].
  simpl in Hrun. unfold bind at 1 in Hrun.
  rewrite (list_nonempty_spec lazors ls) in Hrun by done.
  destruct ls as [|beam0 ls0].
  { simpl in Hrun. injection Hrun as <-.
    exists [], []. by rewrite !app_nil_r. }
  rewrite bool_decide_eq_true_2 in Hrun by done.
  unfold bind at 1 in Hrun.
  destruct (beam_iteration steps lazor_grid lazors gx gy w)
    as [[[]|e|] w1] eqn:Hiter; try done.
  apply beam_iteration_returns in Hiter
    as (rest & beam & queued & a & Hl' & Hh & Hf & Hs).
  rewrite Hl in Hl'. injection Hl' as Hls.
  destruct (IH w1 w' (rest ++ queued) Hrun) as (arrows & prints & Hf' & Hs'
                                                 & Hlen & Hend).
  { rewrite Hh. apply lookup_insert_eq. }
  exists (a :: arrows), (queued ++ prints). split_and!.
  - rewrite Hf', Hf. by rewrite <- app_assoc.
  - rewrite Hs', Hs. by rewrite <- app_assoc.
  - apply (f_equal length) in Hls. rewrite length_app in Hls.
    rewrite length_app in Hlen. rewrite length_app. simpl in *. lia.
  - done.
Qed.

(** X7: when the beam loop returns, it has drawn one arrow for each
    laser of the board and one for each beam it queued, and the list of
    beams is empty: no beam queued is left untraced. *)
Theorem trace_lazor_beams_counts fuel steps lazor_grid gx gy w w' :
  trace_lazor_beams fuel steps lazor_grid gx gy w = (Returns (), w') →
  ∃ ls arrows prints,
    heap w !! lasers lazor_grid = Some (ObjLasers ls)
    ∧ figure w' = figure w ++ arrows
    ∧ stdout w' = stdout w ++ prints
    ∧ length arrows = (length ls + length prints)%nat
    ∧ heap w' !! fresh (dom (heap w)) = Some (ObjLasers []).
Proof.
  unfold trace_lazor_beams. unfold bind at 1.
  destruct (lasers_copy lazor_grid w) as [o w1] eqn:Hcopy.
  apply lasers_copy_spec in Hcopy as [(ls & Hls & -> & ->) | [-> ->]];
    [| done].
  intros Hloop.
  apply (beam_loop_returns _ _ _ _ _ _ _ _ ls) in Hloop
    as (arrows & prints & Hf & Hs & Hlen & Hend);
    [| simpl; apply lookup_insert_eq].
  by exists ls, arrows, prints.
Qed.

Lemma trace_lazor_beams_counts_witness :
  let w' := (trace_lazor_beams 3 3 Scenario.board 4 4 Scenario.world).2 in
  ∃ ls arrows prints,
    heap Scenario.world !! lasers Scenario.board = Some (ObjLasers ls)
    ∧ figure w' = figure Scenario.world ++ arrows
    ∧ stdout w' = stdout Scenario.world ++ prints
    ∧ length arrows = (length ls + length prints)%nat
    ∧ heap w' !! fresh (dom (heap Scenario.world)) = Some (ObjLasers []).
Proof.
  intros w'.
  apply (trace_lazor_beams_counts 3 3 Scenario.board 4 4 Scenario.world w').
  vm_compute. reflexivity.
Defined.

Lemma has_blocks_insert lazor_grid bs l obj w :
  has_blocks lazor_grid bs w →
  l ≠ placed_blocks lazor_grid →
  has_blocks lazor_grid bs (set_heap (<[l := obj]> (heap w)) w).
Proof. intros Hw Hne. unfold has_blocks. simpl. by rewrite lookup_insert_ne. Qed.

Lemma Run_absorbed bs vx vy gx gy x y first k ds cs :
  (∀ b d p, b ∈ bs → dirs_truthy (ensure_list (interact b d p)) = false) →
  Run bs vx vy gx gy x y first k ds cs →
  dirs_truthy ds = false.
Proof.
  intros Habs Hrun.
  destruct (Run_end _ _ _ _ _ _ _ _ _ _ _ Hrun)
    as [(pre & b & post & _ & Hbs & _ & _ & ->) | (_ & -> & _)]; [| done].
  destruct (in_bounds _ _ _ _); [| done].
  apply Habs. rewrite Hbs. apply elem_of_app. right. apply list_elem_of_here.
Qed.

Lemma beam_loop_absorbing steps lazor_grid bs gx gy l :
  (∀ b d p, b ∈ bs → dirs_truthy (ensure_list (interact b d p)) = false) →
  (Z.to_nat (Z.max 1 (Z.max gx gy)) < steps)%nat →
  l ≠ placed_blocks lazor_grid →
  ∀ ls w fuel,
    has_blocks lazor_grid bs w →
    heap w !! l = Some (ObjLasers ls) →
    Forall beam_moves ls →
    (length ls < fuel)%nat →
    ∃ w' arrows,
      beam_loop fuel steps lazor_grid l gx gy w = (Returns (), w')
      ∧ stdout w' = stdout w
      ∧ heap w' = <[l := ObjLasers []]> (heap w)
      ∧ figure w' = figure w ++ arrows
      ∧ Forall2 arrow_of_beam arrows (reverse ls).
Proof.
  intros Habs Hsteps Hne ls.
  induction ls as [|beam rest IH] using rev_ind;
    intros w fuel Hw Hl Hmoves Hfuel;
    (destruct fuel as [|fuel]; [simpl in Hfuel; lia |]).
  - rewrite beam_loop_done by done. exists w, [].
    rewrite app_nil_r, insert_id by done. split_and!; try done; constructor.
  - rewrite length_app in Hfuel. simpl in Hfuel.
    apply Forall_app in Hmoves as [Hrest Hbeam].
    rewrite Forall_singleton in Hbeam.
    destruct beam as [[[sx sy] vx] vy]. simpl in Hbeam.
    destruct (Run_exists bs vx vy gx gy Hbeam sx sy)
      as (k & ds & cs & Hrun & Hk).
    pose proof (Run_first _ _ _ _ _ _ _ _ _ _ Hrun) as Hk1.
    pose proof (Run_absorbed _ _ _ _ _ _ _ _ _ _ _ Habs Hrun) as Hds.
    set (w1 := set_heap (<[l := ObjLasers rest]> (heap w)) w).
    assert (Hw1 : has_blocks lazor_grid bs w1) by by apply has_blocks_insert.
    destruct (find_lazor_endpoint_run _ _ _ _ _ _ _ _ _ _ _ _ Hw1 Hrun)
      as [Hall _].
    specialize (Hall steps ltac:(lia)).
    destruct (beam_iteration_spec _ _ _ _ _ _ _ _ _ _ _ _ _ _ _ Hl Hall)
      as (wa & Hiter & Hh & _ & Hf & Hs).
    rewrite Hds, andb_false_r, app_nil_r in Hh, Hs.
    rewrite (beam_loop_step _ _ _ _ _ _ _ rest (sx, sy, vx, vy) wa)
      by done.
    destruct (IH wa fuel) as (w' & arrows & Hloop & Hs' & Hh' & Hf' & Harrows).
    { unfold has_blocks. rewrite Hh. by rewrite lookup_insert_ne. }
    { rewrite Hh. apply lookup_insert_eq. }
    { done. }
    { lia. }
    exists w'. eexists (_ :: arrows). split_and!.
    + done.
    + by rewrite Hs', Hs.
    + by rewrite Hh', Hh, insert_insert_eq.
    + rewrite Hf', Hf. by rewrite <- app_assoc.
    + rewrite reverse_app, reverse_singleton. simpl. constructor; [| done].
      simpl. split_and!; [done | done |]. exists k. lia.
Qed.

(** X6: on a board whose blocks never answer with a direction (an
    absorbing board, or one without blocks), with lasers that all move,
    the beam loop returns once it has one turn more than there are lasers
    and each trace more steps than the grid is large.  It draws one arrow
    per laser, the last laser of the list first, each along its laser's
    direction; it queues and prints nothing and leaves the list of beams
    empty. *)
Theorem trace_lazor_beams_absorbing fuel steps lazor_grid bs gx gy w ls :
  has_blocks lazor_grid bs w →
  heap w !! lasers lazor_grid = Some (ObjLasers ls) →
  Forall beam_moves ls →
  (∀ b d p, b ∈ bs → dirs_truthy (ensure_list (interact b d p)) = false) →
  (length ls < fuel)%nat →
  (Z.to_nat (Z.max 1 (Z.max gx gy)) < steps)%nat →
  ∃ w' arrows,
    trace_lazor_beams fuel steps lazor_grid gx gy w = (Returns (), w')
    ∧ stdout w' = stdout w
    ∧ heap w' = <[fresh (dom (heap w)) := ObjLasers []]> (heap w)
    ∧ figure w' = figure w ++ arrows
    ∧ Forall2 arrow_of_beam arrows (reverse ls).
Proof.
  intros Hw Hls Hmoves Habs Hfuel Hsteps.
  unfold trace_lazor_beams. unfold bind at 1. unfold lasers_copy.
  rewrite Hls.
  set (l := fresh (dom (heap w))).
  assert (Hne : l ≠ placed_blocks lazor_grid).
  { intros Heq. unfold has_blocks in Hw. rewrite <- Heq in Hw.
    unfold l in Hw. by rewrite fresh_not_allocated in Hw. }
  destruct (beam_loop_absorbing steps lazor_grid bs gx gy l Habs Hsteps Hne
              ls (set_heap (<[l := ObjLasers ls]> (heap w)) w) fuel)
    as (w' & arrows & Hloop & Hs & Hh & Hf & Harrows).
  - by apply has_blocks_insert.
  - simpl. apply lookup_insert_eq.
  - done.
  - done.
  - exists w', arrows. simpl in Hh. rewrite insert_insert_eq in Hh.
    split_and!; done.
Qed.

Lemma trace_lazor_beams_absorbing_witness :
  let w := Scenario.world_with [Scenario.block_at 1 1 RNone]
             [(0, 0, 1, 1); (4, 2, -1, 0)] in
  ∃ w' arrows,
    trace_lazor_beams 3 5 Scenario.board 4 4 w = (Returns (), w')
    ∧ stdout w' = stdout w
    ∧ heap w' = <[fresh (dom (heap w)) := ObjLasers []]> (heap w)
    ∧ figure w' = figure w ++ arrows
    ∧ Forall2 arrow_of_beam arrows (reverse [(0, 0, 1, 1); (4, 2, -1, 0)]).
Proof.
  intros w.
  apply (trace_lazor_beams_absorbing 3 5 Scenario.board
           [Scenario.block_at 1 1 RNone] 4 4 w
           [(0, 0, 1, 1); (4, 2, -1, 0)]).
  - reflexivity.
  - reflexivity.
  - repeat constructor; simpl; lia.
  - intros b d p Hb.
    apply elem_of_cons in Hb as [-> | Hb]; [done |].
    by apply elem_of_nil in Hb.
  - simpl. lia.
  - simpl. lia.
Defined.

(** *** Every queued beam continues a drawn segment *)

Lemma beams_linked_same gx gy w w' :
  figure w' = figure w → stdout w' = stdout w → beams_linked gx gy w w'.
Proof.
  intros Hf Hs. exists [], []. rewrite !app_nil_r.
  split_and!; try done; constructor.
Qed.

Lemma beam_start_ok_more gx gy arrows1 arrows2 beam :
  beam_start_ok gx gy arrows1 beam ∨ beam_start_ok gx gy arrows2 beam →
  beam_start_ok gx gy (arrows1 ++ arrows2) beam.
Proof.
  destruct beam as [[[x y] vx] vy]. simpl.
  intros [(Hin & a & Ha & Hx & Hy) | (Hin & a & Ha & Hx & Hy)];
    (split; [done |]); exists a; (split; [| done]);
    apply elem_of_app; [by left | by right].
Qed.

Lemma beams_linked_trans gx gy w1 w2 w3 :
  beams_linked gx gy w1 w2 → beams_linked gx gy w2 w3 →
  beams_linked gx gy w1 w3.
Proof.
  intros (arrows1 & prints1 & Hf1 & Hs1 & Hok1)
         (arrows2 & prints2 & Hf2 & Hs2 & Hok2).
  exists (arrows1 ++ arrows2), (prints1 ++ prints2). split_and!.
  - by rewrite Hf2, Hf1, app_assoc.
  - by rewrite Hs2, Hs1, app_assoc.
  - apply Forall_app. split.
    + eapply Forall_impl; [exact Hok1 |].
      intros beam Hbeam. apply beam_start_ok_more. by left.
    + eapply Forall_impl; [exact Hok2 |].
      intros beam Hbeam. apply beam_start_ok_more. by right.
Qed.

Lemma list_nonempty_same l w o w' :
  list_nonempty l w = (o, w') → w' = w.
Proof.
  unfold list_nonempty.
  by destruct (heap w !! l) as [[| | |ls]|]; intros [= _ <-].
Qed.

Lemma list_pop_same l w o w' :
  list_pop l w = (o, w') → figure w' = figure w ∧ stdout w' = stdout w.
Proof.
  unfold list_pop.
  destruct (heap w !! l) as [[| | |ls]|]; try by intros [= _ <-].
  by destruct (reverse ls); intros [= _ <-].
Qed.

Lemma queue_new_beams_prints l ex ey ds :
  ∀ w o w',
    queue_new_beams l ex ey ds w = (o, w') →
    figure w' = figure w
    ∧ ∃ prints,
        stdout w' = stdout w ++ prints
        ∧ Forall (λ beam, ∃ d, beam = queued_beam ex ey d) prints.
Proof.
  induction ds as [|d ds IH]; intros w o w'; simpl.
  - intros [= _ <-]. split; [done |]. exists []. rewrite app_nil_r.
    split; [done | constructor].
  - unfold bind at 1. unfold print_queuing. unfold bind at 1.
    unfold list_append. simpl.
    destruct (heap w !! l) as [[| | |ls]|];
      try (intros [= _ <-]; simpl; split; [done |];
           exists [queued_beam ex ey d]; split; [done |];
           repeat constructor; by exists d).
    intros Hrest. apply IH in Hrest as (Hf & prints & Hs & Hall).
    simpl in Hf, Hs. split; [done |].
    exists (queued_beam ex ey d :: prints). split.
    + rewrite Hs. by rewrite <- app_assoc.
    + constructor; [by exists d | done].
Qed.

Lemma beam_iteration_linked steps lazor_grid l gx gy w o w' :
  beam_iteration steps lazor_grid l gx gy w = (o, w') →
  beams_linked gx gy w w'.
Proof.
  unfold beam_iteration. unfold bind at 1.
  destruct (list_pop l w) as [[beam|e|] w1] eqn:Hpop;
    apply list_pop_same in Hpop as [Hf1 Hs1];
    try (intros [= _ <-]; by apply beams_linked_same).
  destruct beam as [[[sx sy] vx] vy]. unfold bind at 1.
  destruct (find_lazor_endpoint steps lazor_grid sx sy vx vy gx gy w1)
    as [[[[ex ey] nd]|e|] w2] eqn:Hfind;
    unfold find_lazor_endpoint in Hfind;
    apply trace_loop_frame in Hfind as (_ & Hf2 & Hs2);
    try (intros [= _ <-]; apply beams_linked_same; congruence).
  unfold bind at 1. unfold ax_arrow.
  set (a := {| arrow_x := sx; arrow_y := sy;
               arrow_dx := ex - sx; arrow_dy := ey - sy |}).
  destruct (in_bounds ex ey gx gy) eqn:Hin;
    [destruct (dirs_truthy nd) |].
  - intros Hqueue.
    apply queue_new_beams_prints in Hqueue as (Hf & prints & Hs & Hall).
    simpl in Hf, Hs. exists [a], prints. split_and!.
    + rewrite Hf. congruence.
    + rewrite Hs. congruence.
    + eapply Forall_impl; [exact Hall |].
      intros beam [d ->]. simpl. split; [done |].
      exists a. split; [apply list_elem_of_here |]. simpl. lia.
  - intros [= _ <-]. exists [a], []. simpl. rewrite app_nil_r.
    split_and!; [congruence | congruence | constructor].
  - intros [= _ <-]. exists [a], []. simpl. rewrite app_nil_r.
    split_and!; [congruence | congruence | constructor].
Qed.

Lemma beam_loop_linked steps lazor_grid l gx gy fuel :
  ∀ w o w',
    beam_loop fuel steps lazor_grid l gx gy w = (o, w') →
    beams_linked gx gy w w'.
Proof.
  induction fuel as [|fuel IH]; intros w o w'; simpl.
  { intros [= _ <-]. by apply beams_linked_same. }
  unfold bind at 1.
  destruct (list_nonempty l w) as [[more|e|] w1] eqn:Hmore;
    apply list_nonempty_same in Hmore as ->;
    try (intros [= _ <-]; by apply beams_linked_same).
  destruct more; [| intros [= _ <-]; by apply beams_linked_same].
  unfold bind at 1.
  destruct (beam_iteration steps lazor_grid l gx gy w) as [[[]|e|] w1]
    eqn:Hiter; apply beam_iteration_linked in Hiter;
    try (by intros [= _ <-]).
  intros Hrest. apply IH in Hrest. by eapply beams_linked_trans.
Qed.

(** X8: whatever the beam loop does, return, raise or run on, every beam
    it has queued and printed starts within the inclusive bounds, at the
    point where an arrow it has drawn ends. *)
Theorem trace_lazor_beams_linked fuel steps lazor_grid gx gy w :
  beams_linked gx gy w
    (trace_lazor_beams fuel steps lazor_grid gx gy w).2.
Proof.
  unfold trace_lazor_beams, bind.
  destruct (lasers_copy lazor_grid w) as [o w1] eqn:Hcopy.
  apply lasers_copy_spec in Hcopy as [(ls & _ & -> & ->) | [-> ->]];
    [| by apply beams_linked_same].
  destruct (beam_loop _ _ _ _ _ _ _) as [o w'] eqn:Hloop.
  apply beam_loop_linked in Hloop. simpl.
  destruct Hloop as (arrows & prints & Hf & Hs & Hok).
  by exists arrows, prints.
Qed.

(** ** The solution overlay of [save_laser_image] *)

Lemma py_index_valid n i :
  valid_index n i → py_index n i = Some (Z.to_nat (i `mod` Z.of_nat n)).
Proof.
  unfold valid_index, py_index. intros Hi.
  destruct (decide (0 ≤ i)) as [Hpos | Hneg].
  - rewrite Z.mod_small by lia.
    by replace ((0 <=? i) && (i <? Z.of_nat n)) with true by lia.
  - replace ((0 <=? i) && (i <? Z.of_nat n)) with false by lia.
    replace ((- Z.of_nat n <=? i) && (i <? 0)) with true by lia.
    replace (i `mod` Z.of_nat n) with (i + Z.of_nat n); [done |].
    rewrite <- (Z_mod_plus_full i 1 (Z.of_nat n)).
    rewrite Z.mod_small; lia.
Qed.

Lemma py_index_invalid n i : ¬ valid_index n i → py_index n i = None.
Proof.
  unfold valid_index, py_index. intros Hi.
  replace ((0 <=? i) && (i <? Z.of_nat n)) with false by lia.
  by replace ((- Z.of_nat n <=? i) && (i <? 0)) with false by lia.
Qed.

Lemma py_index_cases n i :
  (valid_index n i ∧ py_index n i = Some (Z.to_nat (i `mod` Z.of_nat n)))
  ∨ (¬ valid_index n i ∧ py_index n i = None).
Proof.
  destruct (decide (- Z.of_nat n ≤ i < Z.of_nat n)) as [Hi | Hi].
  - left. split; [done | by apply py_index_valid].
  - right. split; [done | by apply py_index_invalid].
Qed.

Lemma map_length_insert_row (rows : list (list string)) :
  ∀ i row row',
    rows !! i = Some row → length row' = length row →
    map length (<[i := row']> rows) = map length rows.
Proof.
  induction rows as [|r rows IH]; intros i row row' Hi Hlen; [done |].
  destruct i as [|i]; simpl in *.
  - injection Hi as ->. by rewrite Hlen.
  - f_equal. by eapply IH.
Qed.

Lemma map_length_lookup (rows : list (list string)) i :
  map length rows !! i = length <$> rows !! i.
Proof.
  revert i. induction rows as [|r rows IH]; intros [|i]; simpl; done.
Qed.

(** X10: [grid[x][y] = c] with Python's indexing.  A position within the
    grid, negative indices counting from the end, makes the write: the
    cell [y mod len(row)] of the row [x mod len(grid)] becomes [c] and
    nothing else changes.  Any other position raises [IndexError] and
    writes nothing. *)
Theorem grid_setitem_spec grid x y c w rows :
  heap w !! grid = Some (ObjGrid rows) →
  let i := Z.to_nat (x `mod` Z.of_nat (length rows)) in
  (in_grid rows x y →
   ∃ row,
     rows !! i = Some row
     ∧ grid_setitem grid x y c w
       = (Returns (),
          set_heap
            (<[grid := ObjGrid
                 (<[i := <[Z.to_nat (y `mod` Z.of_nat (length row)) := c]>
                           row]> rows)]> (heap w)) w))
  ∧ (¬ in_grid rows x y → grid_setitem grid x y c w = (Raises IndexError, w)).
Proof.
  intros Hg i. unfold grid_setitem. rewrite Hg. split.
  - intros (Hx & n & Hn & Hy). rewrite length_map in Hx, Hn.
    rewrite (py_index_valid _ _ Hx). fold i.
    rewrite map_length_lookup in Hn. fold i in Hn.
    destruct (rows !! i) as [row|] eqn:Hrow; [| done].
    injection Hn as <-. exists row. split; [done |].
    by rewrite (py_index_valid _ _ Hy).
  - intros Hout.
    destruct (py_index_cases (length rows) x) as [[Hx ->] | [_ ->]];
      [| done].
    fold i. destruct (rows !! i) as [row|] eqn:Hrow; [| done].
    destruct (py_index_cases (length row) y) as [[Hy _] | [_ ->]]; [| done].
    exfalso. apply Hout. split; [by rewrite length_map |].
    exists (length row). rewrite length_map, map_length_lookup. fold i.
    by rewrite Hrow.
Qed.

Lemma grid_setitem_spec_witness :
  let rows := [["o"; "o"]; ["o"; "o"]] in
  (in_grid rows (-1) 0 →
   ∃ row,
     rows !! Z.to_nat ((-1) `mod` Z.of_nat (length rows)) = Some row
     ∧ grid_setitem 2%positive (-1) 0 "A" Scenario.world
       = (Returns (),
          set_heap
            (<[2%positive := ObjGrid
                 (<[Z.to_nat ((-1) `mod` Z.of_nat (length rows)) :=
                      <[Z.to_nat (0 `mod` Z.of_nat (length row)) := "A"]>
                        row]> rows)]> (heap Scenario.world))
            Scenario.world))
  ∧ (¬ in_grid rows (-1) 0 →
     grid_setitem 2%positive (-1) 0 "A" Scenario.world
     = (Raises IndexError, Scenario.world)).
Proof.
  intros rows.
  apply (grid_setitem_spec 2%positive (-1) 0 "A" Scenario.world rows).
  reflexivity.
Defined.

Lemma in_grid_cases rows x y : in_grid rows x y ∨ ¬ in_grid rows x y.
Proof.
  unfold in_grid, in_shape, valid_index.
  destruct (decide (- Z.of_nat (length (map length rows)) ≤ x
                    < Z.of_nat (length (map length rows)))) as [Hx | Hx];
    [| right; by intros [? _]].
  destruct (map length rows
              !! Z.to_nat (x `mod` Z.of_nat (length (map length rows))))
    as [n|] eqn:Hn; [| right; by intros (_ & ? & ? & _)].
  destruct (decide (- Z.of_nat n ≤ y < Z.of_nat n)) as [Hy | Hy].
  - left. split; [done |]. by exists n.
  - right. intros (_ & n' & [= <-] & Hy'). done.
Qed.

Lemma grid_setitem_effect grid x y c w o w' rows :
  grid_setitem grid x y c w = (o, w') →
  heap w !! grid = Some (ObjGrid rows) →
  (o = Raises IndexError ∧ w' = w ∧ ¬ in_grid rows x y)
  ∨ (o = Returns () ∧ in_grid rows x y
     ∧ ∃ rows',
         w' = set_heap (<[grid := ObjGrid rows']> (heap w)) w
         ∧ map length rows' = map length rows).
Proof.
  intros Hset Hg.
  destruct (grid_setitem_spec grid x y c w rows Hg) as [Hin Hout].
  destruct (in_grid_cases rows x y) as [Hyes | Hno].
  - destruct (Hin Hyes) as (row & Hrow & Hrun).
    rewrite Hrun in Hset. injection Hset as <- <-.
    right. split_and!; [done | done |]. eexists. split; [reflexivity |].
    apply (map_length_insert_row rows _ row); [done |].
    by rewrite length_insert.
  - rewrite (Hout Hno) in Hset. injection Hset as <- <-. by left.
Qed.

Lemma in_grid_shape rows rows' x y :
  map length rows' = map length rows → in_grid rows' x y ↔ in_grid rows x y.
Proof. unfold in_grid. by intros ->. Qed.

(** The overlay keeps the lengths of the grid and of its rows, and
    touches nothing but the grid, however it ends. *)
Lemma apply_solution_effect grid sol :
  ∀ w o w' rows,
    apply_solution grid sol w = (o, w') →
    heap w !! grid = Some (ObjGrid rows) →
    ∃ rows',
      heap w' !! grid = Some (ObjGrid rows')
      ∧ map length rows' = map length rows
      ∧ writes_only grid w w'
      ∧ calls w' = calls w ∧ figure w' = figure w ∧ stdout w' = stdout w.
Proof.
  induction sol as [|[[x y] t] sol IH]; intros w o w' rows; simpl.
  - intros [= _ <-] Hg. exists rows.
    split_and!; try done; apply writes_only_refl.
  - unfold bind at 1.
    destruct (grid_setitem grid x y _ w) as [o1 w1] eqn:Hset.
    intros Hrest Hg.
    destruct (grid_setitem_effect _ _ _ _ _ _ _ _ Hset Hg)
      as [(-> & -> & _) | (-> & _ & rows1 & -> & Hshape)].
    + injection Hrest as _ <-. exists rows.
      split_and!; try done; apply writes_only_refl.
    + destruct (IH _ _ _ rows1 Hrest) as (rows' & Hg' & Hshape' & Hw & Hc
                                           & Hf & Hs).
      { simpl. apply lookup_insert_eq. }
      exists rows'. split_and!; try done; [congruence |].
      eapply writes_only_trans; [apply writes_only_insert | done].
Qed.

Lemma grid_sizes_same grid w o w' : grid_sizes grid w = (o, w') → w' = w.
Proof.
  unfold grid_sizes.
  destruct (heap w !! grid) as [[|rows | |]|]; try by intros [= _ <-].
  by destruct rows; intros [= _ <-].
Qed.

Lemma grid_sizes_shape grid w w' rows rows' :
  heap w !! grid = Some (ObjGrid rows) →
  heap w' !! grid = Some (ObjGrid rows') →
  map length rows' = map length rows →
  (grid_sizes grid w').1 = (grid_sizes grid w).1.
Proof.
  intros Hg Hg' Hshape. unfold grid_sizes. rewrite Hg, Hg'.
  destruct rows as [|row rows], rows' as [|row' rows']; try done.
  simpl in Hshape. injection Hshape as Hrow Hrows.
  apply (f_equal length) in Hrows. rewrite !length_map in Hrows.
  simpl. by rewrite Hrow, Hrows.
Qed.

(** X11: the solution overlay never changes the number of rows of the
    grid nor the length of any row, whether it returns or raises; so the
    sizes [len(grid) * 2] and [len(grid[0]) * 2], read before the overlay,
    are those of the grid after it. *)
Theorem apply_solution_keeps_shape grid sol w rows :
  heap w !! grid = Some (ObjGrid rows) →
  let w' := (apply_solution grid sol w).2 in
  ∃ rows',
    heap w' !! grid = Some (ObjGrid rows')
    ∧ map length rows' = map length rows
    ∧ (grid_sizes grid w').1 = (grid_sizes grid w).1.
Proof.
  intros Hg w'. subst w'.
  destruct (apply_solution grid sol w) as [o w'] eqn:Hrun.
  destruct (apply_solution_effect _ _ _ _ _ _ Hrun Hg)
    as (rows' & Hg' & Hshape & _).
  exists rows'. split_and!; [done | done |].
  by apply (grid_sizes_shape grid w w' rows rows').
Qed.

Lemma apply_solution_keeps_shape_witness :
  let w' := (apply_solution 2%positive
               [(0, 1, "OpaqueBlock"); (5, 5, "ReflectBlock")]
               Scenario.world).2 in
  ∃ rows',
    heap w' !! 2%positive = Some (ObjGrid rows')
    ∧ map length rows' = map length [["o"; "o"]; ["o"; "o"]]
    ∧ (grid_sizes 2%positive w').1 = (grid_sizes 2%positive Scenario.world).1.
Proof.
  apply (apply_solution_keeps_shape 2%positive
           [(0, 1, "OpaqueBlock"); (5, 5, "ReflectBlock")] Scenario.world
           [["o"; "o"]; ["o"; "o"]]).
  reflexivity.
Defined.

Lemma grid_setitem_writes grid x y c w o w' :
  grid_setitem grid x y c w = (o, w') → writes_only grid w w'.
Proof.
  unfold grid_setitem.
  destruct (heap w !! grid) as [[|rows | |]|];
    try (intros [= _ <-]; apply writes_only_refl).
  destruct (py_index (length rows) x) as [i|];
    [| intros [= _ <-]; apply writes_only_refl].
  destruct (rows !! i) as [row|];
    [| intros [= _ <-]; apply writes_only_refl].
  destruct (py_index (length row) y) as [j|]; intros [= _ <-];
    [apply writes_only_insert | apply writes_only_refl].
Qed.

Lemma apply_solution_writes grid sol :
  ∀ w o w', apply_solution grid sol w = (o, w') → writes_only grid w w'.
Proof.
  induction sol as [|[[x y] t] sol IH]; simpl.
  - intros w o w' [= _ <-]. apply writes_only_refl.
  - apply bind_writes_only; [apply grid_setitem_writes |].
    intros _. apply IH.
Qed.

Lemma trace_lazor_beams_keeps fuel steps lazor_grid gx gy w l obj :
  heap w !! l = Some obj →
  heap (trace_lazor_beams fuel steps lazor_grid gx gy w).2 !! l = Some obj.
Proof.
  intros Hl. unfold trace_lazor_beams, bind.
  destruct (lasers_copy lazor_grid w) as [o w1] eqn:Hcopy.
  apply lasers_copy_spec in Hcopy as [(ls & _ & -> & ->) | [-> ->]];
    [| done].
  destruct (beam_loop _ _ _ _ _ _ _) as [o w'] eqn:Hloop.
  apply beam_loop_writes in Hloop. simpl.
  assert (l ≠ fresh (dom (heap w))) as Hne.
  { intros ->. by rewrite fresh_not_allocated in Hl. }
  rewrite (Hloop l Hne). simpl. by rewrite lookup_insert_ne.
Qed.

(** X12: of the objects in the store before the call, [save_laser_image]
    writes at most the board's [orig_grid], and only when a solution is
    given: the placed blocks, [points] and [lasers] are left as they
    were, and without a solution so is [orig_grid], whether the call
    returns, raises or runs on. *)
Theorem save_laser_image_keeps fuel steps lazor_grid solution w l obj :
  heap w !! l = Some obj →
  l ≠ orig_grid lazor_grid ∨ solution = None →
  heap (save_laser_image fuel steps lazor_grid solution w).2 !! l = Some obj.
Proof.
  intros Hl Hcase. unfold save_laser_image. unfold bind at 1.
  destruct (grid_sizes (orig_grid lazor_grid) w) as [[[gx gy]|e|] w0]
    eqn:Hsizes; apply grid_sizes_same in Hsizes as ->; try done.
  unfold bind at 1.
  destruct solution as [placed|].
  - destruct Hcase as [Hne | ?]; [| done].
    destruct (apply_solution (orig_grid lazor_grid) placed w) as [o1 w1]
      eqn:Hoverlay.
    apply apply_solution_writes in Hoverlay.
    assert (Hl1 : heap w1 !! l = Some obj) by by rewrite (Hoverlay l Hne).
    destruct o1 as [[]|e|]; try done.
    by apply trace_lazor_beams_keeps.
  - simpl. by apply trace_lazor_beams_keeps.
Qed.

Lemma save_laser_image_keeps_witness :
  let w' := (save_laser_image 3 3 Scenario.board
               (Some [(0, 0, "ReflectBlock")]) Scenario.world).2 in
  heap w' !! lasers Scenario.board = Some (ObjLasers [(0, 0, 1, 1)])
  ∧ heap w' !! placed_blocks Scenario.board
    = Some (ObjBlocks [Scenario.reflect_block])
  ∧ heap w' !! points Scenario.board = Some (ObjPoints []).
Proof.
  intros w'. split_and!;
    apply (save_laser_image_keeps 3 3 Scenario.board
             (Some [(0, 0, "ReflectBlock")]) Scenario.world);
    first [reflexivity | by left].
Defined.

Lemma apply_solution_app grid s1 s2 :
  ∀ w,
    apply_solution grid (s1 ++ s2) w
    = bind (apply_solution grid s1) (λ _, apply_solution grid s2) w.
Proof.
  induction s1 as [|[[x y] t] s1 IH]; intros w; [done |].
  simpl. unfold bind.
  destruct (grid_setitem grid x y _ w) as [[[]|e|] w1]; try done;
    by rewrite IH.
Qed.

Lemma apply_solution_ok grid sol :
  ∀ w rows,
    heap w !! grid = Some (ObjGrid rows) →
    Forall (placement_in_grid rows) sol →
    ∃ w1 rows1,
      apply_solution grid sol w = (Returns (), w1)
      ∧ heap w1 !! grid = Some (ObjGrid rows1)
      ∧ map length rows1 = map length rows.
Proof.
  induction sol as [|[[x y] t] sol IH]; intros w rows Hg Hall; simpl.
  - by exists w, rows.
  - apply Forall_cons in Hall as [Hin Hall].
    unfold placement_in_grid in Hin. simpl in Hin.
    destruct (grid_setitem_spec grid x y
                (default "?" (block_type_dict !! t)) w rows Hg) as [Hset _].
    destruct (Hset Hin) as (row & Hrow & Hrun).
    unfold bind at 1. rewrite Hrun.
    set (rows' := <[Z.to_nat (x `mod` Z.of_nat (length rows)) :=
                      <[Z.to_nat (y `mod` Z.of_nat (length row)) :=
                          default "?" (block_type_dict !! t)]> row]> rows).
    assert (Hshape : map length rows' = map length rows).
    { apply (map_length_insert_row rows _ row); [done |].
      by rewrite length_insert. }
    destruct (IH (set_heap (<[grid := ObjGrid rows']> (heap w)) w) rows')
      as (w1 & rows1 & Hrun1 & Hg1 & Hshape1).
    { simpl. apply lookup_insert_eq. }
    { eapply Forall_impl; [exact Hall |].
      intros p Hp. unfold placement_in_grid in *.
      by rewrite (in_grid_shape _ _ _ _ Hshape). }
    exists w1, rows1. split_and!; [exact Hrun1 | exact Hg1 | congruence].
Qed.

(** X13: when every placement of the solution names a cell of the grid,
    the overlay returns, and [save_laser_image] then runs the beam loop
    on the overlaid board with the bounds twice the number of rows and
    twice the length of the first row of the grid. *)
Theorem save_laser_image_in_range fuel steps lazor_grid sol w row0 rows :
  heap w !! orig_grid lazor_grid = Some (ObjGrid (row0 :: rows)) →
  Forall (placement_in_grid (row0 :: rows)) sol →
  ∃ w1 rows1,
    apply_solution (orig_grid lazor_grid) sol w = (Returns (), w1)
    ∧ heap w1 !! orig_grid lazor_grid = Some (ObjGrid rows1)
    ∧ map length rows1 = map length (row0 :: rows)
    ∧ save_laser_image fuel steps lazor_grid (Some sol) w
      = trace_lazor_beams fuel steps lazor_grid
          (Z.of_nat (length (row0 :: rows)) * 2) (Z.of_nat (length row0) * 2)
          w1.
Proof.
  intros Hg Hall.
  destruct (apply_solution_ok _ _ _ _ Hg Hall) as (w1 & rows1 & Hrun & Hg1
                                                    & Hshape).
  exists w1, rows1. split_and!; try done.
  unfold save_laser_image. unfold bind at 1. unfold grid_sizes.
  rewrite Hg. unfold bind at 1. by rewrite Hrun.
Qed.

Lemma save_laser_image_in_range_witness :
  ∃ w1 rows1,
    apply_solution (orig_grid Scenario.board)
      [(0, 0, "ReflectBlock"); (-1, 1, "Mirror")] Scenario.world
    = (Returns (), w1)
    ∧ heap w1 !! orig_grid Scenario.board = Some (ObjGrid rows1)
    ∧ map length rows1 = map length [["o"; "o"]; ["o"; "o"]]
    ∧ save_laser_image 3 3 Scenario.board
        (Some [(0, 0, "ReflectBlock"); (-1, 1, "Mirror")]) Scenario.world
      = trace_lazor_beams 3 3 Scenario.board
          (Z.of_nat (length [["o"; "o"]; ["o"; "o"]]) * 2)
          (Z.of_nat (length ["o"; "o"]) * 2) w1.
Proof.
  apply (save_laser_image_in_range 3 3 Scenario.board
           [(0, 0, "ReflectBlock"); (-1, 1, "Mirror")] Scenario.world
           ["o"; "o"] [["o"; "o"]]).
  - reflexivity.
  - constructor; [| constructor; [| constructor]];
      unfold placement_in_grid, in_grid, in_shape, valid_index; simpl;
      (split; [lia |]); exists 2%nat; (split; [reflexivity | lia]).
Defined.

(** X14: a placement that names no cell of the grid makes
    [save_laser_image] raise [IndexError].  The placements before it have
    been written into [orig_grid] and stay written; nothing has been
    drawn or printed, no block has been asked anything and no beam has
    been traced. *)
Theorem save_laser_image_bad_placement
  fuel steps lazor_grid s1 x y t s2 w row0 rows :
  heap w !! orig_grid lazor_grid = Some (ObjGrid (row0 :: rows)) →
  Forall (placement_in_grid (row0 :: rows)) s1 →
  ¬ in_grid (row0 :: rows) x y →
  ∃ w1,
    apply_solution (orig_grid lazor_grid) s1 w = (Returns (), w1)
    ∧ save_laser_image fuel steps lazor_grid (Some (s1 ++ (x, y, t) :: s2)) w
      = (Raises IndexError, w1)
    ∧ figure w1 = figure w ∧ stdout w1 = stdout w ∧ calls w1 = calls w.
Proof.
  intros Hg Hall Hout.
  destruct (apply_solution_ok _ _ _ _ Hg Hall) as (w1 & rows1 & Hrun & Hg1
                                                    & Hshape).
  destruct (apply_solution_effect _ _ _ _ _ _ Hrun Hg)
    as (_ & _ & _ & _ & Hc & Hf & Hs).
  exists w1. split_and!; try done.
  unfold save_laser_image. unfold bind at 1. unfold grid_sizes.
  rewrite Hg. unfold bind at 1.
  rewrite apply_solution_app. unfold bind at 1. rewrite Hrun.
  simpl. unfold bind at 1.
  destruct (grid_setitem_spec (orig_grid lazor_grid) x y
              (default "?" (block_type_dict !! t)) w1 rows1 Hg1)
    as [_ Hraise].
  rewrite Hraise; [done |].
  by rewrite (in_grid_shape _ _ _ _ Hshape).
Qed.

Lemma save_laser_image_bad_placement_witness :
  ∃ w1,
    apply_solution (orig_grid Scenario.board) [(0, 0, "ReflectBlock")]
      Scenario.world
    = (Returns (), w1)
    ∧ save_laser_image 3 3 Scenario.board
        (Some ([(0, 0, "ReflectBlock")] ++ (2, 0, "OpaqueBlock") :: []))
        Scenario.world
      = (Raises IndexError, w1)
    ∧ figure w1 = figure Scenario.world
    ∧ stdout w1 = stdout Scenario.world
    ∧ calls w1 = calls Scenario.world.
Proof.
  apply (save_laser_image_bad_placement 3 3 Scenario.board
           [(0, 0, "ReflectBlock")] 2 0 "OpaqueBlock" [] Scenario.world
           ["o"; "o"] [["o"; "o"]]).
  - reflexivity.
  - constructor; [| constructor];
      unfold placement_in_grid, in_grid, in_shape, valid_index; simpl;
      (split; [lia |]); exists 2%nat; (split; [reflexivity | lia]).
  - unfold in_grid, in_shape, valid_index. simpl. lia.
Defined.

(** X15: on a board whose [orig_grid] is the empty list,
    [save_laser_image] raises [IndexError] at [len(grid[0])], whatever
    the solution: nothing is written, drawn or traced. *)
Theorem save_laser_image_empty_grid fuel steps lazor_grid solution w :
  heap w !! orig_grid lazor_grid = Some (ObjGrid []) →
  save_laser_image fuel steps lazor_grid solution w = (Raises IndexError, w).
Proof.
  intros Hg. unfold save_laser_image. unfold bind at 1. unfold grid_sizes.
  by rewrite Hg.
Qed.

Lemma save_laser_image_empty_grid_witness :
  let w := set_heap (<[2%positive := ObjGrid []]> (heap Scenario.world))
             Scenario.world in
  save_laser_image 3 3 Scenario.board (Some [(0, 0, "ReflectBlock")]) w
  = (Raises IndexError, w).
Proof.
  intros w.
  apply (save_laser_image_empty_grid 3 3 Scenario.board
           (Some [(0, 0, "ReflectBlock")]) w).
  reflexivity.
Defined.

Lemma block_type_dict_unknown t :
  t ≠ "ReflectBlock" → t ≠ "OpaqueBlock" → t ≠ "RefractBlock" →
  block_type_dict !! t = None.
Proof.
  intros H1 H2 H3. unfold block_type_dict.
  rewrite !lookup_insert_ne by done. by rewrite lookup_singleton_ne.
Qed.

(** X16: the symbol the overlay writes for a block type is ['A'], ['B'],
    ['C'] or, for a name that is none of the three block types, ['?'].
    A cell holding it is never passed over by the grid drawing, which
    colours it green, grey, red or, for ['?'], white. *)
Theorem overlay_symbol_colour (t : string) :
  let symbol := default "?" (block_type_dict !! t) in
  (t = "ReflectBlock" ∧ symbol = "A" ∧ cell_color symbol = Some "green")
  ∨ (t = "OpaqueBlock" ∧ symbol = "B" ∧ cell_color symbol = Some "grey")
  ∨ (t = "RefractBlock" ∧ symbol = "C" ∧ cell_color symbol = Some "red")
  ∨ (t ≠ "ReflectBlock" ∧ t ≠ "OpaqueBlock" ∧ t ≠ "RefractBlock"
     ∧ symbol = "?" ∧ cell_color symbol = Some "white").
Proof.
  intros symbol. subst symbol.
  destruct (decide (t = "ReflectBlock")) as [-> | H1];
    [left; by vm_compute |].
  destruct (decide (t = "OpaqueBlock")) as [-> | H2];
    [right; left; by vm_compute |].
  destruct (decide (t = "RefractBlock")) as [-> | H3];
    [right; right; left; by vm_compute |].
  right. right. right.
  rewrite block_type_dict_unknown by done.
  split_and!; try done; by vm_compute.
Qed.

(** ** Beams that come back *)

Section Cycle.

Variable lazor_grid : Board.
Variable bs : list Block.
Variables gx gy : Z.
Variable l : loc.
Variable steps : nat.
Variables x y vx vy ex ey dx dy : Z.
Variables ka kb : nat.
Variables csa csb : list call.

Hypothesis l_fresh : l ≠ placed_blocks lazor_grid.
Hypothesis run_there :
  Run bs vx vy gx gy x y true ka (DList [(dx, dy)]) csa.
Hypothesis run_back :
  Run bs dx dy gx gy ex ey true kb (DList [(vx, vy)]) csb.
Hypothesis there : (x + Z.of_nat ka * vx, y + Z.of_nat ka * vy) = (ex, ey).
Hypothesis back : (ex + Z.of_nat kb * dx, ey + Z.of_nat kb * dy) = (x, y).
Hypothesis end_there : in_bounds ex ey gx gy = true.
Hypothesis end_back : in_bounds x y gx gy = true.

(** One turn on a beam whose run is known: the loop goes on with the
    beams it spawns, or the trace runs out of steps. *)
Lemma beam_loop_turn fuel w rest sx sy ux uy k d cs :
  has_blocks lazor_grid bs w →
  heap w !! l = Some (ObjLasers (rest ++ [(sx, sy, ux, uy)])) →
  Run bs ux uy gx gy sx sy true k (DList [d]) cs →
  in_bounds (sx + Z.of_nat k * ux) (sy + Z.of_nat k * uy) gx gy = true →
  (beam_loop (S fuel) steps lazor_grid l gx gy w).1 = OutOfFuel
  ∨ ∃ w',
      has_blocks lazor_grid bs w'
      ∧ heap w' !! l
        = Some (ObjLasers
                  (rest ++ [queued_beam (sx + Z.of_nat k * ux)
                              (sy + Z.of_nat k * uy) d]))
      ∧ beam_loop (S fuel) steps lazor_grid l gx gy w
        = beam_loop fuel steps lazor_grid l gx gy w'.
Proof.
  intros Hw Hl Hrun Hin.
  set (w1 := set_heap (<[l := ObjLasers rest]> (heap w)) w).
  assert (Hw1 : has_blocks lazor_grid bs w1) by by apply has_blocks_insert.
  destruct (find_lazor_endpoint_run _ _ _ _ _ _ _ _ _ _ _ _ Hw1 Hrun)
    as [_ Honly].
  destruct (find_lazor_endpoint steps lazor_grid sx sy ux uy gx gy w1)
    as [[r|e|] w2] eqn:Hfind.
  - right. destruct (Honly _ _ _ Hfind) as [-> ->].
    destruct (beam_iteration_spec _ _ _ _ _ _ _ _ _ _ _ _ _ _ _ Hl Hfind)
      as (wa & Hiter & Hh & _ & _ & _).
    rewrite Hin in Hh. simpl in Hh.
    exists wa. split_and!.
    + unfold has_blocks. rewrite Hh. by rewrite lookup_insert_ne.
    + rewrite Hh. apply lookup_insert_eq.
    + by apply (beam_loop_step _ _ _ _ _ _ _ rest (sx, sy, ux, uy)).
  - exfalso. unfold find_lazor_endpoint in Hfind.
    apply (trace_loop_never_raises lazor_grid bs ux uy gx gy steps sx sy true
             (DList []) w1 e Hw1).
    by rewrite Hfind.
  - left. simpl. unfold bind at 1.
    rewrite (list_nonempty_spec l (rest ++ [(sx, sy, ux, uy)])) by done.
    rewrite bool_decide_eq_true_2 by (by destruct rest).
    unfold bind at 1. unfold beam_iteration. unfold bind at 1.
    rewrite (list_pop_spec l rest (sx, sy, ux, uy)) by done.
    unfold bind at 1. fold w1. by rewrite Hfind.
Qed.

Lemma beam_loop_cycle fuel :
  (∀ w rest,
     has_blocks lazor_grid bs w →
     heap w !! l = Some (ObjLasers (rest ++ [(x, y, vx, vy)])) →
     (beam_loop fuel steps lazor_grid l gx gy w).1 = OutOfFuel)
  ∧ (∀ w rest,
       has_blocks lazor_grid bs w →
       heap w !! l = Some (ObjLasers (rest ++ [(ex, ey, dx, dy)])) →
       (beam_loop fuel steps lazor_grid l gx gy w).1 = OutOfFuel).
Proof.
  injection there as Hex Hey. injection back as Hx Hy.
  induction fuel as [|fuel [IHa IHb]]; [done |]. split.
  - intros w rest Hw Hl.
    destruct (beam_loop_turn fuel w rest x y vx vy ka (dx, dy) csa Hw Hl
                run_there) as [Hout | (w' & Hw' & Hl' & ->)];
      [by rewrite Hex, Hey | done |].
    rewrite Hex, Hey in Hl'. by apply (IHb w' rest).
  - intros w rest Hw Hl.
    destruct (beam_loop_turn fuel w rest ex ey dx dy kb (vx, vy) csb Hw Hl
                run_back) as [Hout | (w' & Hw' & Hl' & ->)];
      [by rewrite Hx, Hy | done |].
    rewrite Hx, Hy in Hl'. by apply (IHa w' rest).
Qed.

End Cycle.

(** X17: the beam loop has no memory of the beams it has traced.  When
    the last laser of the board, tracing from [(x, y)] along [(vx, vy)],
    ends with the single direction [(dx, dy)] at [(ex, ey)], and the beam
    from there along [(dx, dy)] ends with the single direction [(vx, vy)]
    back at [(x, y)], the loop never returns, however many turns and
    steps it is given. *)
Theorem trace_lazor_beams_cycle
  lazor_grid bs gx gy w rest x y vx vy ex ey dx dy s1 s2 w1 w2 :
  has_blocks lazor_grid bs w →
  heap w !! lasers lazor_grid = Some (ObjLasers (rest ++ [(x, y, vx, vy)])) →
  vx ≠ 0 ∨ vy ≠ 0 →
  dx ≠ 0 ∨ dy ≠ 0 →
  find_lazor_endpoint s1 lazor_grid x y vx vy gx gy w
  = (Returns (ex, ey, DList [(dx, dy)]), w1) →
  find_lazor_endpoint s2 lazor_grid ex ey dx dy gx gy w
  = (Returns (x, y, DList [(vx, vy)]), w2) →
  ∀ fuel steps,
    (trace_lazor_beams fuel steps lazor_grid gx gy w).1 = OutOfFuel.
Proof.
  intros Hw Hls Hv Hd Hthere Hback fuel steps.
  destruct (Run_exists bs vx vy gx gy Hv x y) as (ka & dsa & csa & Hruna & _).
  destruct (Run_exists bs dx dy gx gy Hd ex ey) as (kb & dsb & csb & Hrunb & _).
  destruct (find_lazor_endpoint_run _ _ _ _ _ _ _ _ _ _ _ _ Hw Hruna)
    as [_ Honlya].
  destruct (find_lazor_endpoint_run _ _ _ _ _ _ _ _ _ _ _ _ Hw Hrunb)
    as [_ Honlyb].
  destruct (Honlya _ _ _ Hthere) as [[= Hex Hey <-] _].
  destruct (Honlyb _ _ _ Hback) as [[= Hx Hy <-] _].
  unfold find_lazor_endpoint in Hthere, Hback.
  pose proof (trace_loop_directions_in_bounds _ _ _ _ _ _ _ _ _ _ _ _ _ _ _
                Hthere ltac:(done)) as Hina.
  pose proof (trace_loop_directions_in_bounds _ _ _ _ _ _ _ _ _ _ _ _ _ _ _
                Hback ltac:(done)) as Hinb.
  unfold trace_lazor_beams. unfold bind at 1. unfold lasers_copy.
  rewrite Hls.
  set (l := fresh (dom (heap w))).
  assert (Hne : l ≠ placed_blocks lazor_grid).
  { intros Heq. unfold has_blocks in Hw. rewrite <- Heq in Hw.
    unfold l in Hw. by rewrite fresh_not_allocated in Hw. }
  destruct (beam_loop_cycle lazor_grid bs gx gy l steps x y vx vy ex ey dx dy
              ka kb csa csb Hne Hruna Hrunb) with (fuel := fuel)
    as [Hcycle _]; try done.
  - by f_equal.
  - by f_equal.
  - apply (Hcycle _ rest); [by apply has_blocks_insert |].
    simpl. apply lookup_insert_eq.
Qed.

Lemma trace_lazor_beams_cycle_witness :
  has_blocks Scenario.board [Bounce.mirror_at 1 1; Bounce.mirror_at 3 3]
    Bounce.world
  ∧ ∀ fuel steps,
      (trace_lazor_beams fuel steps Scenario.board 4 4 Bounce.world).1
      = OutOfFuel.
Proof.
  split; [reflexivity |].
  apply (trace_lazor_beams_cycle Scenario.board
           [Bounce.mirror_at 1 1; Bounce.mirror_at 3 3] 4 4 Bounce.world
           [] 1 1 1 1 3 3 (-1) (-1) 3 3
           (find_lazor_endpoint 3 Scenario.board 1 1 1 1 4 4 Bounce.world).2
           (find_lazor_endpoint 3 Scenario.board 3 3 (-1) (-1) 4 4
              Bounce.world).2).
  - reflexivity.
  - reflexivity.
  - left. lia.
  - left. lia.
  - vm_compute. reflexivity.
  - vm_compute. reflexivity.
Defined.

(** ** The third component, for every direction *)



